(** * Batch assembly for a CTC speech recogniser

    A shallow embedding of [speech-recognizer/preprocessing.py]: the class
    [AudioGenerator] with its methods [get_batch], [featurize], [normalize]
    and [shuffle_data_by_partition], and the module-level functions
    [shuffle_data] and [sort_data].

    Conventions.
    - A Python [float] and an element of a float64 array is a binary64
      number, [PrimFloat.float].
    - A Python [int] is a [Z]; a length or an array dimension is a [nat].
    - [labels], [input_length] and [label_length] are float64 arrays that only
      ever hold integers (28, character codes, lengths).  They are modelled
      with entries in [Z]; float64 holds every integer below 2^53 exactly.
    - A raised exception is the left injection of [result].
    - The functions imported from [utils], [python_speech_features],
      [scipy.io.wavfile] and [numpy]'s random and sorting routines are not part
      of the embedded file: they are variables of the sections below.
    - For the order of the sorted durations, [np.argsort] is instantiated by
      [argsort], a reference implementation of what numpy documents of it:
      keys ordered by [<] with NaN last, and an order among equal keys that
      the default sort kind leaves open. *)

From Stdlib Require Import ZArith Ascii String.
From Stdlib Require Import PrimFloat SpecFloat FloatOps FloatAxioms.
From stdpp Require Import base tactics option list strings sorting.

Set Warnings "-inexact-float".

(** ** Exceptions and the result monad *)

Inductive exn : Type :=
  | PyException (msg : string)     (* [raise Exception(msg)] *)
  | AttributeError (attr : string) (* reading an attribute that was never set *)
  | IndexError                     (* list or array index out of range *)
  | ValueError                     (* [max] of an empty list, shape mismatch *)
  | External (msg : string).       (* raised inside a collaborator *)

Definition result (A : Type) : Type := exn + A.

#[global] Instance result_ret : MRet result := fun _ x => inr x.
#[global] Instance result_bind : MBind result :=
  fun _ _ f m => match m with inl e => inl e | inr a => f a end.
#[global] Instance result_fmap : FMap result :=
  fun _ _ f m => match m with inl e => inl e | inr a => inr (f a) end.

Definition raise {A} (e : exn) : result A := inl e.

(** A collaborator reports failure with a message of its own. *)
Definition external {A} (r : string + A) : result A :=
  match r with inl msg => inl (External msg) | inr a => inr a end.

(** [for x in l: acc = f(acc, x)], stopping at the first exception. *)
Fixpoint foldM {A B} (f : B -> A -> result B) (acc : B) (l : list A) : result B :=
  match l with
  | [] => inr acc
  | x :: l' => acc' ← f acc x; foldM f acc' l'
  end.

(** ** Python lists *)

Module Py.

(** The position a (possibly negative) index denotes in a sequence of
    length [len]. *)
Definition norm_index (len : nat) (i : Z) : result nat :=
  if decide (0 ≤ i < Z.of_nat len)%Z then inr (Z.to_nat i)
  else if decide (- Z.of_nat len ≤ i < 0)%Z then inr (Z.to_nat (Z.of_nat len + i))
  else raise IndexError.

(** [l[i]] *)
Definition index {A} (l : list A) (i : Z) : result A :=
  k ← norm_index (length l) i;
  from_option inr (raise IndexError) (l !! k).

(** A slice bound, clamped to [0 .. len]. *)
Definition clamp (len : nat) (i : Z) : nat :=
  if decide (i < 0)%Z then Z.to_nat (Z.max 0 (Z.of_nat len + i))
  else Z.to_nat (Z.min i (Z.of_nat len)).

(** [l[lo:hi]] *)
Definition slice {A} (l : list A) (lo hi : Z) : list A :=
  let a := clamp (length l) lo in
  let b := clamp (length l) hi in
  take (b - a) (drop a l).

(** [range(0, n)] *)
Definition range (n : Z) : list Z := Z.of_nat <$> seq 0 (Z.to_nat n).

(** [max(l)] on a list of non-negative integers. *)
Definition max (l : list nat) : result nat :=
  match l with
  | [] => raise ValueError
  | _ :: _ => inr (max_list l)
  end.

End Py.

(** ** numpy arrays *)

(** A 2-D float64 array of shape [(nrows, ncols)].  The column count is kept
    beside the rows, so that an array with no row still has a shape. *)
Record ndarray2 : Type := { ncols : nat; mrows : list (list float) }.

Definition nrows (m : ndarray2) : nat := length (mrows m).

Definition wf_ndarray2 (m : ndarray2) : Prop :=
  Forall (fun r => length r = ncols m) (mrows m).

Module Np.

(** The common length of two trailing axes under numpy's broadcasting. *)
Definition broadcast_dim (a b : nat) : result nat :=
  if decide (a = b) then inr a
  else if decide (a = 1) then inr b
  else if decide (b = 1) then inr a
  else raise ValueError.

(** A row of length [n] or 1 seen as a row of length [n]. *)
Definition stretch {A} (d : A) (n : nat) (r : list A) : list A :=
  if decide (length r = n) then r else replicate n (default d (head r)).

(** [m (op) v] for a 2-D array [m] and a 1-D array [v]. *)
Definition binop (op : float -> float -> float) (m : ndarray2) (v : list float)
  : result ndarray2 :=
  d ← broadcast_dim (ncols m) (length v);
  inr {| ncols := d;
         mrows := (fun r => zip_with op (stretch 0%float d r) (stretch 0%float d v))
                    <$> mrows m |}.

(** [v + x] for a 1-D array [v] and a scalar [x]. *)
Definition add_scalar (v : list float) (x : float) : list float :=
  (fun y => PrimFloat.add y x) <$> v.

(** [np.zeros([t, d])] *)
Definition zeros2 (t d : nat) : ndarray2 :=
  {| ncols := d; mrows := replicate t (replicate d 0%float) |}.

(** [target[:feat.shape[0], :] = feat] on 2-D arrays.  The slice holds
    [min t (nrows target)] rows; [feat] must broadcast to its shape. *)
Definition assign_rows (target feat : ndarray2) : result ndarray2 :=
  let t := nrows feat in
  let tt := t `min` nrows target in
  if decide (t = tt ∨ t = 1) then
    if decide (ncols feat = ncols target ∨ ncols feat = 1) then
      inr {| ncols := ncols target;
             mrows := (stretch 0%float (ncols target) <$> take tt (mrows feat))
                        ++ drop tt (mrows target) |}
    else raise ValueError
  else raise ValueError.

(** [row[:len(label)] = label] on 1-D arrays. *)
Definition assign_prefix (row label : list Z) : result (list Z) :=
  let n := length label in
  let w := n `min` length row in
  if decide (n = w ∨ n = 1) then inr (take w label ++ drop w row)
  else raise ValueError.

(** [row[...] = x]: every entry of the row becomes the scalar [x]. *)
Definition fill (x : Z) (row : list Z) : result (list Z) :=
  inr (replicate (length row) x).

(** [arr[i] (...) = ...]: the row at index [i] is rewritten by [f]. *)
Definition update_row {A} (arr : list A) (i : Z) (f : A -> result A)
  : result (list A) :=
  k ← Py.norm_index (length arr) i;
  match arr !! k with
  | Some r => r' ← f r; inr (<[k := r']> arr)
  | None => raise IndexError
  end.

End Np.

(** ** The generator object *)

(** The three parallel sequences of one partition. *)
Record partition_data : Type := {
  audio_paths : list string;
  durations : list float;
  texts : list string
}.

(** The attributes of an [AudioGenerator] instance.  The attributes
    [train_audio_paths], [train_durations], [train_texts] (and those of
    [valid] and [test]) are grouped by partition. *)
Record AudioGenerator : Type := {
  feat_dim : nat;
  mfcc_dim : nat;
  feats_mean : list float;
  feats_std : list float;
  rng : Z;
  step : Z;
  window : Z;
  max_freq : Z;
  cur_train_index : Z;
  cur_valid_index : Z;
  cur_test_index : Z;
  max_duration : float;
  minimum_batch_size : Z;
  spectrogram : bool;
  sort_by_duration : bool;
  train : partition_data;
  valid : partition_data;
  test : partition_data
}.

Definition train_audio_paths (g : AudioGenerator) := audio_paths (train g).
Definition train_durations (g : AudioGenerator) := durations (train g).
Definition train_texts (g : AudioGenerator) := texts (train g).
Definition valid_audio_paths (g : AudioGenerator) := audio_paths (valid g).
Definition valid_durations (g : AudioGenerator) := durations (valid g).
Definition valid_texts (g : AudioGenerator) := texts (valid g).
Definition test_audio_paths (g : AudioGenerator) := audio_paths (test g).
Definition test_durations (g : AudioGenerator) := durations (test g).
Definition test_texts (g : AudioGenerator) := texts (test g).

Definition RNG_SEED : Z := 123.

(** [self.train_audio_paths, self.train_durations, self.train_texts = a, d, t] *)
Definition set_train (a : list string) (d : list float) (t : list string)
  (g : AudioGenerator) : AudioGenerator :=
  {| feat_dim := feat_dim g; mfcc_dim := mfcc_dim g;
     feats_mean := feats_mean g; feats_std := feats_std g; rng := rng g;
     step := step g; window := window g; max_freq := max_freq g;
     cur_train_index := cur_train_index g; cur_valid_index := cur_valid_index g;
     cur_test_index := cur_test_index g; max_duration := max_duration g;
     minimum_batch_size := minimum_batch_size g; spectrogram := spectrogram g;
     sort_by_duration := sort_by_duration g;
     train := {| audio_paths := a; durations := d; texts := t |};
     valid := valid g; test := test g |}.

(** [self.valid_audio_paths, self.valid_durations, self.valid_texts = a, d, t] *)
Definition set_valid (a : list string) (d : list float) (t : list string)
  (g : AudioGenerator) : AudioGenerator :=
  {| feat_dim := feat_dim g; mfcc_dim := mfcc_dim g;
     feats_mean := feats_mean g; feats_std := feats_std g; rng := rng g;
     step := step g; window := window g; max_freq := max_freq g;
     cur_train_index := cur_train_index g; cur_valid_index := cur_valid_index g;
     cur_test_index := cur_test_index g; max_duration := max_duration g;
     minimum_batch_size := minimum_batch_size g; spectrogram := spectrogram g;
     sort_by_duration := sort_by_duration g;
     train := train g;
     valid := {| audio_paths := a; durations := d; texts := t |};
     test := test g |}.

(** The same generator with another value of the duration-sort flag. *)
Definition set_sort_by_duration (b : bool) (g : AudioGenerator) : AudioGenerator :=
  {| feat_dim := feat_dim g; mfcc_dim := mfcc_dim g;
     feats_mean := feats_mean g; feats_std := feats_std g; rng := rng g;
     step := step g; window := window g; max_freq := max_freq g;
     cur_train_index := cur_train_index g; cur_valid_index := cur_valid_index g;
     cur_test_index := cur_test_index g; max_duration := max_duration g;
     minimum_batch_size := minimum_batch_size g; spectrogram := spectrogram g;
     sort_by_duration := b;
     train := train g; valid := valid g; test := test g |}.

(** [self.cur_train_index = c], as the caller of [get_batch] assigns it. *)
Definition set_cur_train_index (c : Z) (g : AudioGenerator) : AudioGenerator :=
  {| feat_dim := feat_dim g; mfcc_dim := mfcc_dim g;
     feats_mean := feats_mean g; feats_std := feats_std g; rng := rng g;
     step := step g; window := window g; max_freq := max_freq g;
     cur_train_index := c; cur_valid_index := cur_valid_index g;
     cur_test_index := cur_test_index g; max_duration := max_duration g;
     minimum_batch_size := minimum_batch_size g; spectrogram := spectrogram g;
     sort_by_duration := sort_by_duration g;
     train := train g; valid := valid g; test := test g |}.

(** [self.cur_valid_index = c] *)
Definition set_cur_valid_index (c : Z) (g : AudioGenerator) : AudioGenerator :=
  {| feat_dim := feat_dim g; mfcc_dim := mfcc_dim g;
     feats_mean := feats_mean g; feats_std := feats_std g; rng := rng g;
     step := step g; window := window g; max_freq := max_freq g;
     cur_train_index := cur_train_index g; cur_valid_index := c;
     cur_test_index := cur_test_index g; max_duration := max_duration g;
     minimum_batch_size := minimum_batch_size g; spectrogram := spectrogram g;
     sort_by_duration := sort_by_duration g;
     train := train g; valid := valid g; test := test g |}.

(** The arrays of the [inputs] dictionary [get_batch] returns, under their
    keys.  In the body of [get_batch] the first two are the local variables
    [input_data] and [labels]. *)
Record Inputs : Type := {
  the_input : list ndarray2;        (* shape (batch, max_length, feature dim) *)
  the_labels : list (list Z);       (* shape (batch, max_string_length) *)
  input_length : list (list Z);     (* shape (batch, 1) *)
  label_length : list (list Z)      (* shape (batch, 1) *)
}.

(** The [outputs] dictionary. *)
Record Outputs : Type := { ctc : list float }.

(** The label every entry of [labels] starts with. *)
Definition blank_label : Z := 28.

(** The default of [normalize]'s parameter [eps]. *)
Definition default_eps : float := 1e-14%float.

(** ** Methods *)

Section Generator.

(** *** Collaborators *)

(** [utils.calc_feat_dim(window, max_freq)] *)
Variable calc_feat_dim : Z -> Z -> nat.
(** [utils.spectrogram_from_file(clip, step=, window=, max_freq=)] *)
Variable spectrogram_from_file : string -> Z -> Z -> Z -> string + ndarray2.
(** [scipy.io.wavfile.read(clip)] returns a rate and a signal. *)
Variable signal : Type.
Variable wav_read : string -> string + (Z * signal).
(** [python_speech_features.mfcc(sig, rate, numcep=)] *)
Variable mfcc : signal -> Z -> nat -> string + ndarray2.
(** [utils.text_to_int_sequence(text)] *)
Variable text_to_int_sequence : string -> string + list Z.
(** numpy's global random state and [np.random.permutation(n)]. *)
Variable rng_state : Type.
Variable np_random_permutation : rng_state -> nat -> list nat * rng_state.
(** [np.argsort(durations).tolist()] *)
Variable np_argsort : list float -> list nat.

(** *** The constructor, for [desc_file=None]

    The partitions are attributes the corpus loader assigns; the loader is
    no part of the class, so the constructor takes what it assigns. *)
Definition init (step window max_freq : Z) (mfcc_dim : nat)
    (minimum_batch_size : Z) (spectrogram : bool) (max_duration : float)
    (sort_by_duration : bool) (train valid test : partition_data)
  : AudioGenerator :=
  let feat_dim := calc_feat_dim window max_freq in
  {| feat_dim := feat_dim;
     mfcc_dim := mfcc_dim;
     feats_mean := replicate feat_dim 0%float;     (* np.zeros((feat_dim,)) *)
     feats_std := replicate feat_dim 1%float;      (* np.ones((feat_dim,)) *)
     rng := RNG_SEED;
     step := step; window := window; max_freq := max_freq;
     cur_train_index := 0; cur_valid_index := 0; cur_test_index := 0;
     max_duration := max_duration;
     minimum_batch_size := minimum_batch_size;
     spectrogram := spectrogram;
     sort_by_duration := sort_by_duration;
     train := train; valid := valid; test := test |}.

(** *** Methods that only read [self] *)

Definition featurize (g : AudioGenerator) (audio_clip : string) : result ndarray2 :=
  if spectrogram g then
    external (spectrogram_from_file audio_clip (step g) (window g) (max_freq g))
  else
    '(rate, sig) ← external (wav_read audio_clip);
    external (mfcc sig rate (mfcc_dim g)).

(** [(feature - self.feats_mean) / (self.feats_std + eps)] *)
Definition normalize (g : AudioGenerator) (feature : ndarray2) (eps : float)
  : result ndarray2 :=
  centered ← Np.binop PrimFloat.sub feature (feats_mean g);
  Np.binop PrimFloat.div centered (Np.add_scalar (feats_std g) eps).

(** The [if]/[elif] chain at the head of [get_batch].  The [test] branch
    reads [self.test_valid_index], an attribute the class never sets (the
    constructor sets [cur_test_index]). *)
Definition select_partition (g : AudioGenerator) (partition : string)
  : result (list string * Z * list string) :=
  if decide (partition = "train") then
    inr (train_audio_paths g, cur_train_index g, train_texts g)
  else if decide (partition = "valid") then
    inr (valid_audio_paths g, cur_valid_index g, valid_texts g)
  else if decide (partition = "test") then
    let audio_paths := test_audio_paths g in
    cur_index ← (raise (AttributeError "test_valid_index") : result Z);
    inr (audio_paths, cur_index, test_texts g)
  else raise (PyException "Invalid partition. Must be train/validation or test").

(** The list comprehension that builds [features]. *)
Definition window_features (g : AudioGenerator) (clips : list string)
  : result (list ndarray2) :=
  mapM (fun a => f ← featurize g a; normalize g f default_eps) clips.

(** [self.feat_dim * self.spectrogram + self.mfcc_dim * (not self.spectrogram)] *)
Definition input_dim (g : AudioGenerator) : nat :=
  feat_dim g * Nat.b2n (spectrogram g) + mfcc_dim g * Nat.b2n (negb (spectrogram g)).

(** One turn of the loop over [range(0, self.minimum_batch_size)]. *)
Definition batch_step (features : list ndarray2) (texts : list string)
    (cur_index : Z) (st : Inputs) (i : Z) : result Inputs :=
  feat ← Py.index features i;
  input_length' ← Np.update_row (input_length st) i (Np.fill (Z.of_nat (nrows feat)));
  input_data' ← Np.update_row (the_input st) i (fun target => Np.assign_rows target feat);
  text ← Py.index texts (cur_index + i)%Z;
  label ← external (text_to_int_sequence text);
  labels' ← Np.update_row (the_labels st) i (fun row => Np.assign_prefix row label);
  label_length' ← Np.update_row (label_length st) i (Np.fill (Z.of_nat (length label)));
  inr {| the_input := input_data'; the_labels := labels';
         input_length := input_length'; label_length := label_length' |}.

(** The body of [get_batch] as a function of the attributes it reads. *)
Definition get_batch_body (g : AudioGenerator) (partition : string)
  : result (Inputs * Outputs) :=
  '(audio_paths, cur_index, texts) ← select_partition g partition;
  let bs := minimum_batch_size g in
  features ← window_features g (Py.slice audio_paths cur_index (cur_index + bs)%Z);
  lengths ← mapM (fun i => nrows <$> Py.index features i) (Py.range bs);
  max_length ← Py.max lengths;
  string_lengths ←
    mapM (fun i => String.length <$> Py.index texts (cur_index + i)%Z) (Py.range bs);
  max_string_length ← Py.max string_lengths;
  let n := Z.to_nat bs in
  let arrays :=
    {| the_input := replicate n (Np.zeros2 max_length (input_dim g));
       the_labels := replicate n (replicate max_string_length blank_label);
       input_length := replicate n (replicate 1 0%Z);
       label_length := replicate n (replicate 1 0%Z) |} in
  inputs ← foldM (batch_step features texts cur_index) arrays (Py.range bs);
  inr (inputs, {| ctc := replicate n 0%float |}).

(** *** Methods as computations over the program state

    The state is the generator object and numpy's global random state.  A
    method returns its result, or the exception it raised, and the state it
    leaves. *)

Record world : Type := { self : AudioGenerator; np_random : rng_state }.

Definition M (A : Type) : Type := world -> result A * world.

#[local] Instance M_ret : MRet M := fun _ x w => (inr x, w).
#[local] Instance M_bind : MBind M :=
  fun _ _ f m w => match m w with
                   | (inl e, w') => (inl e, w')
                   | (inr a, w') => f a w'
                   end.

(** Read [self]. *)
Definition ask : M AudioGenerator := fun w => (inr (self w), w).
(** Run a computation that touches no state. *)
Definition lift {A} (r : result A) : M A := fun w => (r, w).
(** Assign attributes of [self]. *)
Definition modify (f : AudioGenerator -> AudioGenerator) : M unit :=
  fun w => (inr tt, {| self := f (self w); np_random := np_random w |}).
(** [np.random.permutation(n)] draws from, and advances, the global state. *)
Definition permutation (n : nat) : M (list nat) :=
  fun w => let '(p, r) := np_random_permutation (np_random w) n in
           (inr p, {| self := self w; np_random := r |}).

Definition get_batch (partition : string) : M (Inputs * Outputs) :=
  g ← ask;
  lift (get_batch_body g partition).

(** [[l[i] for i in p]] *)
Definition gather {A} (l : list A) (p : list nat) : result (list A) :=
  mapM (fun i => Py.index l (Z.of_nat i)) p.

Definition shuffle_data (audio_paths : list string) (durations : list float)
    (texts : list string) : M (list string * list float * list string) :=
  p ← permutation (length audio_paths);
  lift (a ← gather audio_paths p;
        d ← gather durations p;
        t ← gather texts p;
        inr (a, d, t)).

Definition sort_data (audio_paths : list string) (durations : list float)
    (texts : list string) : result (list string * list float * list string) :=
  let p := np_argsort durations in
  a ← gather audio_paths p;
  d ← gather durations p;
  t ← gather texts p;
  inr (a, d, t).

Definition shuffle_data_by_partition (partition : string) : M unit :=
  if decide (partition = "train") then
    g ← ask;
    '(a, d, t) ← shuffle_data (train_audio_paths g) (train_durations g) (train_texts g);
    modify (set_train a d t)
  else if decide (partition = "valid") then
    g ← ask;
    '(a, d, t) ← shuffle_data (valid_audio_paths g) (valid_durations g) (valid_texts g);
    modify (set_valid a d t)
  else lift (raise (PyException "Invalid partition. Must be train/validation")).


(** ** Vocabulary of the properties *)

(** The sequences and the cursor of a partition, by name. *)
Definition partition_state (g : AudioGenerator) (partition : string)
  : option (partition_data * Z) :=
  if decide (partition = "train") then Some (train g, cur_train_index g)
  else if decide (partition = "valid") then Some (valid g, cur_valid_index g)
  else if decide (partition = "test") then Some (test g, cur_test_index g)
  else None.

(** [partition] names a partition whose window
    [[cursor, cursor + minimum_batch_size)] lies within its sequences. *)
Definition window_within (g : AudioGenerator) (partition : string) : Prop :=
  match partition_state g partition with
  | Some (pd, c) =>
      (0 <= c)%Z /\ (0 <= minimum_batch_size g)%Z /\
      (c + minimum_batch_size g <= Z.of_nat (length (audio_paths pd)))%Z /\
      (c + minimum_batch_size g <= Z.of_nat (length (texts pd)))%Z
  | None => False
  end.

(** The examples [l[c], ..., l[c + n - 1]]. *)
Definition window_of {A} (l : list A) (c n : Z) : list A :=
  take (Z.to_nat n) (drop (Z.to_nat c) l).

(** [m] is the largest element of [l]. *)
Definition is_max (m : nat) (l : list nat) : Prop :=
  m ∈ l /\ forall x, x ∈ l -> x <= m.

(** The examples as triples, in order. *)
Definition triples (audio_paths : list string) (durations : list float)
    (texts : list string) : list (string * (float * string)) :=
  zip audio_paths (zip durations texts).



(** *** [np.argsort]

    numpy compares two float keys of a sort by [a < b || (b != b && a == a)]:
    a number goes before a larger number, and before NaN. *)
Definition np_lt (x y : float) : bool :=
  PrimFloat.ltb x y || (negb (PrimFloat.is_nan x) && PrimFloat.is_nan y).

(** Position [a.1] with key [a.2] goes before position [b.1] with key [b.2].
    The default sort kind, quicksort, promises no order among keys neither of
    which goes before the other (equal numbers, two NaN): there [tie]
    decides. *)
Definition before (tie : nat -> nat -> bool) (a b : nat * float) : bool :=
  if np_lt a.2 b.2 then true
  else if np_lt b.2 a.2 then false
  else tie a.1 b.1.

Fixpoint insert_sorted (lt : nat * float -> nat * float -> bool)
    (a : nat * float) (l : list (nat * float)) : list (nat * float) :=
  match l with
  | [] => [a]
  | b :: l' => if lt a b then a :: l else b :: insert_sorted lt a l'
  end.

(** The positions of [ds] with their keys, sorted. *)
Definition sort_positions (tie : nat -> nat -> bool) (ds : list float)
  : list (nat * float) :=
  foldr (insert_sorted (before tie)) [] (zip (seq 0 (length ds)) ds).

(** [np.argsort(ds).tolist()], for a rule [tie] that may depend on the
    input. *)
Definition argsort (tie : list float -> nat -> nat -> bool) (ds : list float)
  : list nat :=
  (sort_positions (tie ds) ds).*1.

(** Ties broken by position, as [kind='stable'] does. *)
Definition stable_tie : list float -> nat -> nat -> bool := fun _ => Nat.ltb.

(** What numpy documents of the index list [p = np.argsort(ds)]: it lists
    every position of [ds] once, and no key goes before a key to its left. *)
Definition np_sorted_positions (ds : list float) (p : list nat) : Prop :=
  p ≡ₚ seq 0 (length ds) /\
  forall j k a b x y,
    j < k -> p !! j = Some a -> p !! k = Some b ->
    ds !! a = Some x -> ds !! b = Some y -> np_lt y x = false.

(** The place of [a] in [p]. *)
Fixpoint rank (p : list nat) (a : nat) : nat :=
  match p with
  | [] => 0
  | b :: p' => if decide (a = b) then 0 else S (rank p' a)
  end.

(** The rule that breaks ties the way [p] has them. *)
Definition tie_of (p : list nat) : nat -> nat -> bool :=
  fun a b => rank p a <? rank p b.


(** The generator whose partition [partition] ([train] or [valid]) holds
    the given paths and texts, with the cursor at 0. *)
Definition with_examples (partition : string) (paths texts : list string)
    (ds : list float) (g : AudioGenerator) : AudioGenerator :=
  if decide (partition = "train") then
    set_cur_train_index 0 (set_train paths ds texts g)
  else if decide (partition = "valid") then
    set_cur_valid_index 0 (set_valid paths ds texts g)
  else g.

(** The computation does not end in [raise Exception(...)]. *)
Definition no_py_exception {A} (m : result A) : Prop :=
  forall msg, m <> inl (PyException msg).

(** *** The state of the loop of [get_batch]

    For a batch of [n] examples whose arrays were allocated with [T]
    time-steps, [D] feature columns and [W] label columns. *)

(** The arrays before the loop. *)
Definition fresh_arrays (n T D W : nat) : Inputs :=
  {| the_input := replicate n (Np.zeros2 T D);
     the_labels := replicate n (replicate W blank_label);
     input_length := replicate n (replicate 1 0%Z);
     label_length := replicate n (replicate 1 0%Z) |}.

(** Example [i] has not been written yet. *)
Definition row_fresh (T D W : nat) (st : Inputs) (i : nat) : Prop :=
  the_input st !! i = Some (Np.zeros2 T D) /\
  the_labels st !! i = Some (replicate W blank_label) /\
  input_length st !! i = Some [0%Z] /\
  label_length st !! i = Some [0%Z].

(** Example [i] holds what the loop body writes for it. *)
Definition row_done (features : list ndarray2) (texts : list string)
    (cur_index : Z) (T D W : nat) (st : Inputs) (i : nat) : Prop :=
  exists feat text label m row,
    features !! i = Some feat /\
    Py.index texts (cur_index + Z.of_nat i)%Z = inr text /\
    text_to_int_sequence text = inr label /\
    input_length st !! i = Some [Z.of_nat (nrows feat)] /\
    label_length st !! i = Some [Z.of_nat (length label)] /\
    the_input st !! i = Some m /\
    Np.assign_rows (Np.zeros2 T D) feat = inr m /\
    the_labels st !! i = Some row /\
    Np.assign_prefix (replicate W blank_label) label = inr row.

Definition loop_inv (features : list ndarray2) (texts : list string)
    (cur_index : Z) (n T D W : nat) (k : nat) (st : Inputs) : Prop :=
  length (the_input st) = n /\ length (the_labels st) = n /\
  length (input_length st) = n /\ length (label_length st) = n /\
  (forall i, i < k -> row_done features texts cur_index T D W st i) /\
  (forall i, k <= i < n -> row_fresh T D W st i).

(** ** Facts about the result monad *)

Lemma bind_inr {A B} (m : result A) (f : A -> result B) (b : B) :
  m ≫= f = inr b -> exists a, m = inr a /\ f a = inr b.
Proof. destruct m as [e|a]; simpl; [discriminate | eauto]. Qed.

Lemma fmap_inr {A B} (f : A -> B) (m : result A) (b : B) :
  f <$> m = inr b -> exists a, m = inr a /\ b = f a.
Proof. destruct m as [e|a]; simpl; [discriminate | intros [= <-]; eauto]. Qed.

Lemma mapM_inr {A B} (f : A -> result B) (l : list A) (k : list B) :
  mapM f l = inr k <-> Forall2 (fun x y => f x = inr y) l k.
Proof.
  split.
  - revert k. induction l as [|x l IH]; intros k; simpl.
    + intros [= <-]. constructor.
    + intros (y & Hy & H)%bind_inr. apply bind_inr in H as (k' & Hk' & [= <-]).
      constructor; auto.
  - induction 1 as [|x y l k Hxy _ IH]; simpl; [done|].
    rewrite Hxy. simpl. rewrite IH. done.
Qed.

Lemma mapM_inr_length {A B} (f : A -> result B) (l : list A) (k : list B) :
  mapM f l = inr k -> length k = length l.
Proof. intros H%mapM_inr. symmetry. eapply Forall2_length, H. Qed.

Lemma mapM_inr_lookup {A B} (f : A -> result B) (l : list A) (k : list B) i x :
  mapM f l = inr k -> l !! i = Some x -> exists y, k !! i = Some y /\ f x = inr y.
Proof.
  intros H%mapM_inr Hx.
  destruct (Forall2_lookup_l _ _ _ _ _ H Hx) as (y & ? & ?). eauto.
Qed.

(** A loop over [range(0, n)] keeps an invariant indexed by the number of
    turns taken. *)
Lemma foldM_seq_inv {B} (P : nat -> B -> Prop) (f : B -> Z -> result B) n :
  (forall k st st', k < n -> P k st -> f st (Z.of_nat k) = inr st' -> P (S k) st') ->
  forall j acc res, j <= n -> P j acc ->
    foldM f acc (Z.of_nat <$> seq j (n - j)) = inr res -> P n res.
Proof.
  intros Hstep j. remember (n - j) as d eqn:Hd. revert j Hd.
  induction d as [|d IH]; intros j Hd acc res Hj HP; simpl.
  - intros [= <-]. by replace n with j by lia.
  - intros (st' & Hf & Hrest)%bind_inr.
    apply (IH (S j)) with (acc := st'); [lia | lia | | done].
    apply Hstep with acc; [lia | done | done].
Qed.

Lemma foldM_range_inv {B} (P : nat -> B -> Prop) (f : B -> Z -> result B) n acc res :
  P 0 acc ->
  (forall k st st', k < n -> P k st -> f st (Z.of_nat k) = inr st' -> P (S k) st') ->
  foldM f acc (Py.range (Z.of_nat n)) = inr res -> P n res.
Proof.
  intros H0 Hstep. unfold Py.range. rewrite Nat2Z.id.
  intros H. apply (foldM_seq_inv P f n Hstep 0 acc res); [lia | done |].
  by rewrite Nat.sub_0_r.
Qed.

(** A loop whose every turn succeeds under the invariant runs to its end. *)
Lemma foldM_seq_total {B} (P : nat -> B -> Prop) (f : B -> Z -> result B) n :
  (forall k st, k < n -> P k st -> exists st', f st (Z.of_nat k) = inr st' /\ P (S k) st') ->
  forall j acc, j <= n -> P j acc ->
    exists res, foldM f acc (Z.of_nat <$> seq j (n - j)) = inr res /\ P n res.
Proof.
  intros Hstep j. remember (n - j) as d eqn:Hd. revert j Hd.
  induction d as [|d IH]; intros j Hd acc Hj HP; simpl.
  - exists acc. split; [done|]. by replace n with j by lia.
  - destruct (Hstep j acc) as (st' & Hf & HP'); [lia | done |].
    rewrite Hf. simpl. apply (IH (S j)); [lia | lia | done].
Qed.

Lemma foldM_range_total {B} (P : nat -> B -> Prop) (f : B -> Z -> result B) n acc :
  P 0 acc ->
  (forall k st, k < n -> P k st -> exists st', f st (Z.of_nat k) = inr st' /\ P (S k) st') ->
  exists res, foldM f acc (Py.range (Z.of_nat n)) = inr res /\ P n res.
Proof.
  intros H0 Hstep. unfold Py.range. rewrite Nat2Z.id.
  destruct (foldM_seq_total P f n Hstep 0 acc) as (res & H & HP); [lia | done |].
  exists res. by rewrite Nat.sub_0_r in H.
Qed.

(** ** Facts about Python lists *)

Lemma norm_index_nat (len k : nat) :
  Py.norm_index len (Z.of_nat k) = if decide (k < len) then inr k else raise IndexError.
Proof.
  unfold Py.norm_index. repeat case_decide; try lia; try done.
  by rewrite Nat2Z.id.
Qed.

Lemma index_nat {A} (l : list A) (k : nat) :
  Py.index l (Z.of_nat k) = from_option inr (raise IndexError) (l !! k).
Proof.
  unfold Py.index. rewrite norm_index_nat. case_decide; simpl; [done|].
  by rewrite lookup_ge_None_2 by lia.
Qed.

Lemma index_nat_inr {A} (l : list A) (k : nat) (x : A) :
  Py.index l (Z.of_nat k) = inr x <-> l !! k = Some x.
Proof.
  rewrite index_nat. destruct (l !! k); simpl; split; intros; simplify_eq; done.
Qed.

(** A window that lies within the sequence is the slice Python takes. *)
Lemma slice_window {A} (l : list A) (c n : nat) :
  c + n <= length l ->
  Py.slice l (Z.of_nat c) (Z.of_nat c + Z.of_nat n) = take n (drop c l).
Proof.
  intros H. unfold Py.slice, Py.clamp. repeat case_decide; try lia.
  f_equal; [|f_equal]; lia.
Qed.

Lemma range_length (n : nat) : length (Py.range (Z.of_nat n)) = n.
Proof. unfold Py.range. by rewrite length_fmap, length_seq, Nat2Z.id. Qed.

Lemma range_lookup (n i : nat) :
  i < n -> Py.range (Z.of_nat n) !! i = Some (Z.of_nat i).
Proof.
  intros H. unfold Py.range. rewrite Nat2Z.id, list_lookup_fmap, lookup_seq_lt by done.
  done.
Qed.

Lemma max_inr (l : list nat) (m : nat) :
  Py.max l = inr m <-> l <> [] /\ m = max_list l.
Proof.
  destruct l; simpl; split; try done.
  - by intros [? _].
  - intros [= <-]. done.
  - intros [_ ->]. done.
Qed.

(** [max] returns an element of the list that bounds the others. *)
Lemma max_spec (l : list nat) (m : nat) :
  Py.max l = inr m -> m ∈ l /\ forall x, x ∈ l -> x <= m.
Proof.
  intros [Hne ->]%max_inr. split.
  - by apply max_list_elem_of.
  - intros x. apply max_list_elem_of_le.
Qed.

(** ** Facts about array assignments *)

Lemma update_row_nat {A} (arr : list A) (k : nat) (f : A -> result A) (arr' : list A) :
  Np.update_row arr (Z.of_nat k) f = inr arr' <->
  exists r r', arr !! k = Some r /\ f r = inr r' /\ arr' = <[k := r']> arr.
Proof.
  unfold Np.update_row. rewrite norm_index_nat. split.
  - case_decide; simpl; [|done].
    destruct (arr !! k) as [r|] eqn:Hr; [|done].
    intros (r' & Hf & [= <-])%bind_inr. eauto.
  - intros (r & r' & Hr & Hf & ->).
    apply lookup_lt_Some in Hr as Hlt.
    rewrite decide_True by done. simpl. rewrite Hr, Hf. done.
Qed.

Lemma update_row_ok {A} (arr : list A) (k : nat) (f : A -> result A) (r r' : A) :
  arr !! k = Some r -> f r = inr r' ->
  Np.update_row arr (Z.of_nat k) f = inr (<[k := r']> arr).
Proof. intros. apply update_row_nat. eauto. Qed.

(** Writing a feature matrix into a fresh block of [np.zeros] keeps the
    block's shape and leaves zeros below the rows written. *)
Lemma assign_rows_zeros (T D : nat) (feat m : ndarray2) :
  Np.assign_rows (Np.zeros2 T D) feat = inr m ->
  ncols m = D /\ nrows m = T /\
  forall j row, nrows feat <= j -> mrows m !! j = Some row -> row = replicate D 0%float.
Proof.
  unfold Np.assign_rows, nrows. simpl. rewrite length_replicate.
  case_decide as Ht; [|done]. case_decide as Hd; [|done].
  intros [= <-]. simpl. split; [done|]. split.
  - rewrite length_app, length_fmap, length_take, length_drop, length_replicate. lia.
  - intros j row Hj.
    rewrite lookup_app_r; rewrite length_fmap, length_take; [|lia].
    rewrite lookup_drop. intros [? _]%lookup_replicate. done.
Qed.

Lemma assign_rows_zeros_ok (T D : nat) (feat : ndarray2) :
  nrows feat <= T -> ncols feat = D \/ ncols feat = 1 ->
  exists m, Np.assign_rows (Np.zeros2 T D) feat = inr m.
Proof.
  intros Ht Hd. unfold Np.assign_rows, nrows in *. simpl. rewrite length_replicate.
  rewrite decide_True by lia. rewrite decide_True by done. eauto.
Qed.

(** A successful write of a feature matrix into a block of [D] columns
    means its column count is [D] or 1. *)
Lemma assign_rows_inr_ncols (target feat m : ndarray2) :
  Np.assign_rows target feat = inr m ->
  ncols feat = ncols target \/ ncols feat = 1.
Proof.
  unfold Np.assign_rows. case_decide; [|done]. case_decide; [done|done].
Qed.

(** Writing a label sequence into a fresh row of blanks keeps the row's
    width and leaves blanks beyond the sequence. *)
Lemma assign_prefix_blank (W : nat) (label row : list Z) :
  Np.assign_prefix (replicate W blank_label) label = inr row ->
  length row = W /\
  (length label <= W \/ (length label = 1 /\ W = 0)) /\
  (length label <= W -> take (length label) row = label) /\
  forall k x, length label <= k -> row !! k = Some x -> x = blank_label.
Proof.
  unfold Np.assign_prefix. rewrite length_replicate.
  case_decide as Hn; [|done]. intros [= <-].
  split; [|split; [|split]].
  - rewrite length_app, length_take, length_drop, length_replicate. lia.
  - lia.
  - intros Hle. rewrite Nat.min_l by done.
    rewrite take_app_le by (rewrite length_take; lia).
    rewrite take_take, Nat.min_id. by rewrite take_ge by lia.
  - intros k x Hk.
    rewrite lookup_app_r; rewrite length_take; [|lia].
    rewrite lookup_drop. intros [? _]%lookup_replicate. done.
Qed.

Lemma assign_prefix_blank_ok (W : nat) (label : list Z) :
  length label <= W ->
  exists row, Np.assign_prefix (replicate W blank_label) label = inr row.
Proof.
  intros H. unfold Np.assign_prefix. rewrite length_replicate.
  rewrite decide_True by lia. eauto.
Qed.

(** ** The loop of [get_batch] *)

Section Loop.

Variables (features : list ndarray2) (texts : list string) (cur_index : Z).
(** The batch size and the dimensions the arrays were allocated with. *)
Variables (n T D W : nat).

Lemma loop_inv_fresh :
  loop_inv features texts cur_index n T D W 0 (fresh_arrays n T D W).
Proof.
  unfold loop_inv, fresh_arrays. simpl. rewrite !length_replicate.
  do 4 (split; [done|]). split; [intros i Hi; lia|].
  intros i Hi. unfold row_fresh. simpl.
  rewrite !lookup_replicate_2 by lia. done.
Qed.

(** What one turn does to the arrays. *)
Lemma batch_step_inr (k : nat) (st st' : Inputs) :
  batch_step features texts cur_index st (Z.of_nat k) = inr st' ->
  exists feat text label r1 r1' r2 r2' r3 r3' r4 r4',
    features !! k = Some feat /\
    Py.index texts (cur_index + Z.of_nat k)%Z = inr text /\
    text_to_int_sequence text = inr label /\
    input_length st !! k = Some r1 /\ Np.fill (Z.of_nat (nrows feat)) r1 = inr r1' /\
    the_input st !! k = Some r2 /\ Np.assign_rows r2 feat = inr r2' /\
    the_labels st !! k = Some r3 /\ Np.assign_prefix r3 label = inr r3' /\
    label_length st !! k = Some r4 /\ Np.fill (Z.of_nat (length label)) r4 = inr r4' /\
    st' = {| the_input := <[k := r2']> (the_input st);
             the_labels := <[k := r3']> (the_labels st);
             input_length := <[k := r1']> (input_length st);
             label_length := <[k := r4']> (label_length st) |}.
Proof.
  unfold batch_step.
  intros (feat & Hfeat & H)%bind_inr. apply index_nat_inr in Hfeat.
  apply bind_inr in H as (il & U1 & H).
  apply update_row_nat in U1 as (r1 & r1' & ? & ? & ->).
  apply bind_inr in H as (id & U2 & H).
  apply update_row_nat in U2 as (r2 & r2' & ? & ? & ->).
  apply bind_inr in H as (text & Htext & H).
  apply bind_inr in H as (label & Hlabel & H).
  apply bind_inr in H as (lb & U3 & H).
  apply update_row_nat in U3 as (r3 & r3' & ? & ? & ->).
  apply bind_inr in H as (ll & U4 & [= <-]).
  apply update_row_nat in U4 as (r4 & r4' & ? & ? & ->).
  destruct (text_to_int_sequence text) as [msg|label'] eqn:Henc; simpl in Hlabel;
    [done | injection Hlabel as ->].
  exists feat, text, label, r1, r1', r2, r2', r3, r3', r4, r4'.
  repeat split; done.
Qed.

Lemma row_done_insert_ne (k i : nat) (st : Inputs) r1 r2 r3 r4 :
  i <> k -> row_done features texts cur_index T D W st i ->
  row_done features texts cur_index T D W
           {| the_input := <[k := r2]> (the_input st);
              the_labels := <[k := r3]> (the_labels st);
              input_length := <[k := r1]> (input_length st);
              label_length := <[k := r4]> (label_length st) |} i.
Proof.
  intros Hne (feat & text & label & m & row & ? & ? & ? & ? & ? & ? & ? & ? & ?).
  exists feat, text, label, m, row. simpl.
  rewrite !list_lookup_insert_ne by done. repeat split; done.
Qed.

Lemma row_fresh_insert_ne (k i : nat) (st : Inputs) r1 r2 r3 r4 :
  i <> k -> row_fresh T D W st i ->
  row_fresh T D W
            {| the_input := <[k := r2]> (the_input st);
               the_labels := <[k := r3]> (the_labels st);
               input_length := <[k := r1]> (input_length st);
               label_length := <[k := r4]> (label_length st) |} i.
Proof.
  intros Hne (? & ? & ? & ?). unfold row_fresh. simpl.
  rewrite !list_lookup_insert_ne by done. repeat split; done.
Qed.

(** Each turn writes the next example and touches no other. *)
Lemma batch_step_inv (k : nat) (st st' : Inputs) :
  k < n -> loop_inv features texts cur_index n T D W k st ->
  batch_step features texts cur_index st (Z.of_nat k) = inr st' ->
  loop_inv features texts cur_index n T D W (S k) st'.
Proof.
  intros Hk (L1 & L2 & L3 & L4 & Hdone & Hfresh) Hstep.
  apply batch_step_inr in Hstep
    as (feat & text & label & r1 & r1' & r2 & r2' & r3 & r3' & r4 & r4'
        & Hfeat & Htext & Henc & H1 & F1 & H2 & F2 & H3 & F3 & H4 & F4 & ->).
  destruct (Hfresh k) as (E2 & E3 & E1 & E4); [lia|].
  rewrite H1 in E1. rewrite H2 in E2. rewrite H3 in E3. rewrite H4 in E4.
  simplify_eq. unfold Np.fill in F1, F4. simpl in F1, F4. simplify_eq.
  unfold loop_inv. simpl. rewrite !length_insert.
  do 4 (split; [done|]). split.
  - intros i Hi. destruct (decide (i = k)) as [->|Hne].
    + exists feat, text, label, r2', r3'. simpl.
      rewrite !list_lookup_insert_eq by lia. repeat split; done.
    + apply row_done_insert_ne; [done|]. apply Hdone. lia.
  - intros i Hi. apply row_fresh_insert_ne; [lia|]. apply Hfresh. lia.
Qed.

(** A turn succeeds when the feature matrix and the label sequence fit
    the arrays. *)
Lemma batch_step_ok (k : nat) (st : Inputs) (feat : ndarray2) (text : string)
    (label : list Z) :
  k < n -> loop_inv features texts cur_index n T D W k st ->
  features !! k = Some feat ->
  nrows feat <= T -> ncols feat = D \/ ncols feat = 1 ->
  Py.index texts (cur_index + Z.of_nat k)%Z = inr text ->
  text_to_int_sequence text = inr label ->
  length label <= W ->
  exists st', batch_step features texts cur_index st (Z.of_nat k) = inr st'.
Proof.
  intros Hk (L1 & L2 & L3 & L4 & Hdone & Hfresh) Hfeat HT HD Htext Henc HW.
  destruct (Hfresh k) as (E2 & E3 & E1 & E4); [lia|].
  destruct (assign_rows_zeros_ok T D feat HT HD) as (m & Hm).
  destruct (assign_prefix_blank_ok W label HW) as (row & Hrow).
  unfold batch_step.
  rewrite (proj2 (index_nat_inr features k feat) Hfeat). simpl.
  rewrite (update_row_ok (input_length st) k (Np.fill _) _ _ E1 eq_refl). simpl.
  rewrite (update_row_ok (the_input st) k _ _ _ E2 Hm). simpl.
  rewrite Htext. simpl. rewrite Henc. simpl.
  rewrite (update_row_ok (the_labels st) k _ _ _ E3 Hrow). simpl.
  rewrite (update_row_ok (label_length st) k (Np.fill _) _ _ E4 eq_refl). simpl.
  eauto.
Qed.

End Loop.

(** ** The body of [get_batch] *)

Lemma select_partition_inr (g : AudioGenerator) (partition : string) paths c txts :
  select_partition g partition = inr (paths, c, txts) ->
  exists pd, partition_state g partition = Some (pd, c) /\
             paths = audio_paths pd /\ txts = texts pd /\
             (partition = "train" \/ partition = "valid").
Proof.
  unfold select_partition, partition_state.
  unfold train_audio_paths, train_texts, valid_audio_paths, valid_texts.
  repeat case_decide; simpl; intros; simplify_eq; eexists; eauto 10.
Qed.

(** The values a comprehension over [range(0, n)] reads from a window
    that lies within the list. *)
Lemma mapM_index_window {A B} (f : A -> B) (l : list A) (c n : nat) (ks : list B) :
  c + n <= length l ->
  mapM (fun i => f <$> Py.index l (Z.of_nat c + i)%Z) (Py.range (Z.of_nat n)) = inr ks ->
  ks = f <$> take n (drop c l).
Proof.
  intros Hlen H. pose proof (mapM_inr_length _ _ _ H) as Hks.
  rewrite range_length in Hks.
  apply (list_eq_same_length _ _ n).
  - rewrite length_fmap, length_take, length_drop. lia.
  - done.
  - intros i x y Hi Hx Hy.
    destruct (mapM_inr_lookup _ _ _ i _ H (range_lookup n i Hi)) as (x' & Hx' & Hf).
    rewrite Hx in Hx'. injection Hx' as <-.
    rewrite <- Nat2Z.inj_add, index_nat in Hf.
    rewrite list_lookup_fmap, lookup_take_lt, lookup_drop in Hy by done.
    destruct (l !! (c + i)) as [a|]; simpl in *; simplify_eq. done.
Qed.

Lemma mapM_index_window_ok {A B} (f : A -> B) (l : list A) (c n : nat) :
  c + n <= length l ->
  mapM (fun i => f <$> Py.index l (Z.of_nat c + i)%Z) (Py.range (Z.of_nat n))
  = inr (f <$> take n (drop c l)).
Proof.
  intros Hlen. apply mapM_inr. apply Forall2_same_length_lookup_2.
  - rewrite range_length, length_fmap, length_take, length_drop. lia.
  - intros i z y Hz Hy.
    assert (i < n) as Hi.
    { apply lookup_lt_Some in Hz. by rewrite range_length in Hz. }
    rewrite range_lookup in Hz by done. injection Hz as <-.
    rewrite list_lookup_fmap, lookup_take_lt, lookup_drop in Hy by done.
    rewrite <- Nat2Z.inj_add, index_nat.
    destruct (l !! (c + i)) as [a|]; simpl in *; simplify_eq. done.
Qed.

Lemma mapM_index_prefix_ok {A B} (f : A -> B) (l : list A) (n : nat) :
  n <= length l ->
  mapM (fun i => f <$> Py.index l i) (Py.range (Z.of_nat n)) = inr (f <$> take n l).
Proof. intros H. by apply (mapM_index_window_ok f l 0 n). Qed.

(** What a successful run of the body has computed. *)
Lemma get_batch_body_inr (g : AudioGenerator) (partition : string)
    (inputs : Inputs) (outputs : Outputs) :
  get_batch_body g partition = inr (inputs, outputs) ->
  exists audio_paths cur_index texts features lengths max_length string_lengths
         max_string_length n,
    select_partition g partition = inr (audio_paths, cur_index, texts) /\
    minimum_batch_size g = Z.of_nat n /\ 0 < n /\
    window_features g (Py.slice audio_paths cur_index (cur_index + Z.of_nat n)%Z)
      = inr features /\
    mapM (fun i => nrows <$> Py.index features i) (Py.range (Z.of_nat n)) = inr lengths /\
    Py.max lengths = inr max_length /\
    mapM (fun i => String.length <$> Py.index texts (cur_index + i)%Z)
         (Py.range (Z.of_nat n)) = inr string_lengths /\
    Py.max string_lengths = inr max_string_length /\
    loop_inv features texts cur_index n max_length (input_dim g) max_string_length
             n inputs /\
    outputs = {| ctc := replicate n 0%float |}.
Proof.
  unfold get_batch_body.
  intros ([[paths c] txts] & Hsel & H)%bind_inr.
  apply bind_inr in H as (features & Hfeat & H).
  apply bind_inr in H as (lengths & Hlen & H).
  apply bind_inr in H as (max_length & Hmax & H).
  apply bind_inr in H as (slens & Hslen & H).
  apply bind_inr in H as (max_slen & Hsmax & H).
  apply bind_inr in H as (res & Hloop & [= <- <-]).
  set (n := Z.to_nat (minimum_batch_size g)) in *.
  assert (0 < n) as Hn.
  { apply max_inr in Hmax as [Hne _].
    apply mapM_inr_length in Hlen. unfold Py.range in Hlen.
    rewrite length_fmap, length_seq in Hlen. fold n in Hlen.
    destruct lengths; [done | simpl in Hlen; lia]. }
  assert (minimum_batch_size g = Z.of_nat n) as Hbs by lia.
  rewrite Hbs in *.
  exists paths, c, txts, features, lengths, max_length, slens, max_slen, n.
  do 8 (split; [done|]). split; [|done].
  eapply (foldM_range_inv
            (loop_inv features txts c n max_length (input_dim g) max_slen));
    [apply loop_inv_fresh | | exact Hloop].
  intros k st st' Hk. by apply batch_step_inv.
Qed.

(** [get_batch] returns what its body computes and leaves the state as it
    found it. *)
Lemma get_batch_run (partition : string) (w : world) :
  get_batch partition w = (get_batch_body (self w) partition, w).
Proof. reflexivity. Qed.

(** ** Properties of a returned batch *)

(** C1. Padding invariant: in the batch [get_batch] returns for a window
    within the partition, example [i] has only zero rows in the input
    tensor from the time index [input_length[i]] on, and only the blank
    label 28 in the label tensor from the column [label_length[i]] on. *)
Theorem get_batch_padding (partition : string) (w : world)
    (inputs : Inputs) (outputs : Outputs) :
  window_within (self w) partition ->
  fst (get_batch partition w) = inr (inputs, outputs) ->
  forall i : nat, (Z.of_nat i < minimum_batch_size (self w))%Z ->
    exists (m : ndarray2) (row : list Z) (t l : nat),
      the_input inputs !! i = Some m /\
      input_length inputs !! i = Some [Z.of_nat t] /\
      (forall j r, t <= j -> mrows m !! j = Some r ->
                   r = replicate (input_dim (self w)) 0%float) /\
      the_labels inputs !! i = Some row /\
      label_length inputs !! i = Some [Z.of_nat l] /\
      (forall k x, l <= k -> row !! k = Some x -> x = 28%Z).
Proof.
  intros _ Hrun i Hi. rewrite get_batch_run in Hrun. simpl in Hrun.
  apply get_batch_body_inr in Hrun
    as (paths & c & txts & features & lengths & T & slens & W & n
        & _ & Hbs & _ & _ & _ & _ & _ & _ & Hinv & _).
  destruct Hinv as (_ & _ & _ & _ & Hdone & _).
  destruct (Hdone i) as (feat & text & label & m & row
                         & _ & _ & _ & Hil & Hll & Hm & Hwm & Hrow & Hwrow); [lia|].
  exists m, row, (nrows feat), (length label).
  apply assign_rows_zeros in Hwm as (_ & _ & Hpad).
  apply assign_prefix_blank in Hwrow as (_ & _ & _ & Hblank).
  repeat split; done.
Qed.

(** C3. Every array of a returned batch has the configured minimum batch
    size as its first dimension. *)
Theorem get_batch_first_dimension (partition : string) (w : world)
    (inputs : Inputs) (outputs : Outputs) :
  window_within (self w) partition ->
  fst (get_batch partition w) = inr (inputs, outputs) ->
  Z.of_nat (length (the_input inputs)) = minimum_batch_size (self w) /\
  Z.of_nat (length (the_labels inputs)) = minimum_batch_size (self w) /\
  Z.of_nat (length (input_length inputs)) = minimum_batch_size (self w) /\
  Z.of_nat (length (label_length inputs)) = minimum_batch_size (self w) /\
  Z.of_nat (length (ctc outputs)) = minimum_batch_size (self w).
Proof.
  intros _ Hrun. rewrite get_batch_run in Hrun. simpl in Hrun.
  apply get_batch_body_inr in Hrun
    as (paths & c & txts & features & lengths & T & slens & W & n
        & _ & Hbs & _ & _ & _ & _ & _ & _ & Hinv & ->).
  destruct Hinv as (L1 & L2 & L3 & L4 & _ & _).
  simpl. rewrite length_replicate, L1, L2, L3, L4, Hbs. done.
Qed.

(** The blocks and the label rows of a finished batch have the allocated
    shapes. *)
Lemma loop_inv_shapes features txts c n T D W (inputs : Inputs) :
  loop_inv features txts c n T D W n inputs ->
  Forall (fun m => nrows m = T /\ ncols m = D) (the_input inputs) /\
  Forall (fun row => length row = W) (the_labels inputs).
Proof.
  intros (L1 & L2 & _ & _ & Hdone & _). split.
  - apply Forall_lookup_2. intros i m Hm.
    destruct (Hdone i) as (feat & text & label & m' & row
                           & _ & _ & _ & _ & _ & Hm' & Hwm & _ & _).
    { apply lookup_lt_Some in Hm. lia. }
    rewrite Hm in Hm'. injection Hm' as <-.
    apply assign_rows_zeros in Hwm as (? & ? & _). done.
  - apply Forall_lookup_2. intros i row Hrow.
    destruct (Hdone i) as (feat & text & label & m & row'
                           & _ & _ & _ & _ & _ & _ & _ & Hrow' & Hwrow).
    { apply lookup_lt_Some in Hrow. lia. }
    rewrite Hrow in Hrow'. injection Hrow' as <-.
    apply assign_prefix_blank in Hwrow as (? & _). done.
Qed.

(** C4. A returned batch is not empty: the input tensor and the label
    tensor hold one block and one row for each of the [minimum_batch_size]
    examples of the window, and there is at least one.  The time dimension
    of every block is the largest number of time-steps among the normalized
    feature matrices of the window, and the width of every label row is the
    largest character count among the transcripts of the window. *)
Theorem get_batch_exact_maxima (partition : string) (w : world)
    (pd : partition_data) (c : Z) (inputs : Inputs) (outputs : Outputs) :
  partition_state (self w) partition = Some (pd, c) ->
  window_within (self w) partition ->
  fst (get_batch partition w) = inr (inputs, outputs) ->
  let bs := minimum_batch_size (self w) in
  exists features,
    window_features (self w) (window_of (audio_paths pd) c bs) = inr features /\
    (0 < bs)%Z /\
    Z.of_nat (length features) = bs /\
    Z.of_nat (length (the_input inputs)) = bs /\
    Z.of_nat (length (the_labels inputs)) = bs /\
    Forall (fun m => is_max (nrows m) (nrows <$> features)) (the_input inputs) /\
    Forall (fun row => is_max (length row)
                         (String.length <$> window_of (texts pd) c bs))
           (the_labels inputs).
Proof.
  intros Hpd Hwin Hrun bs. subst bs.
  unfold window_within in Hwin. rewrite Hpd in Hwin.
  destruct Hwin as (Hc & _ & Hpaths & Htexts).
  rewrite get_batch_run in Hrun. simpl in Hrun.
  apply get_batch_body_inr in Hrun
    as (paths & c' & txts & features & lengths & T & slens & W & n
        & Hsel & Hbs & Hn & Hfeat & Hlen & Hmax & Hslen & Hsmax & Hinv & _).
  apply select_partition_inr in Hsel as (pd' & Hpd' & -> & -> & _).
  rewrite Hpd in Hpd'. injection Hpd' as <- <-.
  rewrite Hbs in *. unfold window_of. rewrite Nat2Z.id.
  replace c with (Z.of_nat (Z.to_nat c)) in Hfeat, Hslen by lia.
  rewrite slice_window in Hfeat by lia.
  exists features. split; [done|].
  assert (length features = n) as Hfl.
  { apply mapM_inr_length in Hfeat. rewrite Hfeat, length_take, length_drop. lia. }
  assert (lengths = nrows <$> features) as ->.
  { replace features with (take n (drop 0 features))
      by (rewrite drop_0, take_ge by lia; done).
    rewrite drop_0, take_ge by lia.
    replace (nrows <$> features) with (nrows <$> take n (drop 0 features))
      by (rewrite drop_0, take_ge by lia; done).
    apply (mapM_index_window nrows features 0 n); [simpl; lia|].
    exact Hlen. }
  apply mapM_index_window in Hslen; [|lia]. subst slens.
  apply max_spec in Hmax. apply max_spec in Hsmax.
  pose proof Hinv as (L1 & L2 & _).
  apply loop_inv_shapes in Hinv as [HT HW].
  do 4 (split; [lia|]). split.
  - eapply Forall_impl; [exact HT|]. intros m [-> _]. exact Hmax.
  - eapply Forall_impl; [exact HW|]. intros row ->. exact Hsmax.
Qed.

(** ** Reordering by a list of indices *)

Lemma gather_inr {A} (l : list A) (p : list nat) (k : list A) :
  gather l p = inr k <-> Forall2 (fun i x => l !! i = Some x) p k.
Proof.
  unfold gather. rewrite mapM_inr.
  split; intros H; (eapply Forall2_impl; [exact H|]); simpl; intros i x.
  - by rewrite index_nat_inr.
  - by rewrite index_nat_inr.
Qed.

Lemma gather_lookup {A} (l : list A) (p : list nat) (k : list A) j i :
  gather l p = inr k -> p !! j = Some i -> k !! j = l !! i.
Proof.
  intros H%gather_inr Hp.
  destruct (Forall2_lookup_l _ _ _ _ _ H Hp) as (x & -> & ->). done.
Qed.

Lemma gather_ok {A} (l : list A) (p : list nat) :
  Forall (fun i => i < length l) p -> exists k, gather l p = inr k.
Proof.
  induction 1 as [|i p Hi _ (k & IH)].
  - by exists [].
  - destruct (lookup_lt_is_Some_2 l i Hi) as (x & Hx).
    exists (x :: k). apply gather_inr. constructor; [done|]. by apply gather_inr.
Qed.

Lemma gather_zip {A B} (l1 : list A) (l2 : list B) p k1 k2 :
  gather l1 p = inr k1 -> gather l2 p = inr k2 ->
  gather (zip l1 l2) p = inr (zip k1 k2).
Proof.
  rewrite !gather_inr. intros H1. revert k2.
  induction H1 as [|i x p k1 Hx _ IH]; intros k2 H2; inversion H2; simplify_eq.
  - constructor.
  - simpl. constructor; [|by apply IH].
    rewrite lookup_zip_with. rewrite Hx. simpl.
    match goal with H : l2 !! i = Some _ |- _ => rewrite H end. done.
Qed.

Lemma gather_seq {A} (l0 l : list A) :
  gather (l0 ++ l) (seq (length l0) (length l)) = inr l.
Proof.
  apply gather_inr. revert l0. induction l as [|x l IH]; intros l0; simpl.
  - constructor.
  - constructor.
    + rewrite lookup_app_r by lia. by rewrite Nat.sub_diag.
    + specialize (IH (l0 ++ [x])).
      rewrite <- app_assoc, length_app in IH. simpl in IH.
      by rewrite Nat.add_1_r in IH.
Qed.

(** Gathering along a permuted index list permutes the result. *)
Lemma gather_Permutation {A} (l : list A) (p q : list nat) (k : list A) :
  p ≡ₚ q -> gather l p = inr k -> exists k', gather l q = inr k' /\ k ≡ₚ k'.
Proof.
  intros Hpq. revert k.
  induction Hpq as [|i p q _ IH|i j p|p q r _ IH1 _ IH2]; intros k Hk.
  - exists k. done.
  - apply gather_inr in Hk. inversion Hk as [|? x ? k0 Hx Hrest]; simplify_eq.
    apply gather_inr in Hrest. destruct (IH _ Hrest) as (k' & Hk' & Hperm).
    exists (x :: k'). split; [|by constructor].
    apply gather_inr. constructor; [done|]. by apply gather_inr.
  - apply gather_inr in Hk. inversion Hk as [|? x ? k0 Hx Hrest]; simplify_eq.
    inversion Hrest as [|? y ? k1 Hy Hrest']; simplify_eq.
    exists (y :: x :: k1). split; [|by constructor].
    apply gather_inr. by repeat constructor.
  - destruct (IH1 _ Hk) as (k1 & Hk1 & P1).
    destruct (IH2 _ Hk1) as (k2 & Hk2 & P2).
    exists k2. split; [done|]. by etrans.
Qed.

(** Gathering along a permutation of all positions permutes the list. *)
Lemma gather_permutes {A} (l : list A) (p : list nat) (k : list A) :
  p ≡ₚ seq 0 (length l) -> gather l p = inr k -> k ≡ₚ l.
Proof.
  intros Hp Hk. destruct (gather_Permutation l _ _ k Hp Hk) as (k' & Hk' & Hperm).
  pose proof (gather_seq [] l) as Hseq. simpl in Hseq.
  rewrite Hseq in Hk'. by injection Hk' as <-.
Qed.



(** ** Sorting and shuffling *)

(** *** The order of binary64 numbers *)

Lemma SFcompare_antisym (x y : spec_float) :
  SFcompare y x = option_map CompOpp (SFcompare x y).
Proof.
  destruct x as [[]|[]| |[] m1 e1], y as [[]|[]| |[] m2 e2];
    simpl; try reflexivity;
    rewrite (Z.compare_antisym e1 e2); destruct (e1 ?= e2)%Z;
    simpl; try reflexivity;
    rewrite (Pos.compare_cont_antisym m1 m2 Eq); simpl;
    try rewrite CompOpp_involutive; reflexivity.
Qed.

Lemma SFcompare_refl (x : spec_float) :
  SFcompare x x = None \/ SFcompare x x = Some Eq.
Proof.
  destruct x as [[]|[]| |[] m e]; simpl; auto;
    rewrite Z.compare_refl, Pos.compare_cont_refl; auto.
Qed.

Lemma SFcompare_nan (x y : spec_float) :
  SFcompare x x = None -> SFcompare x y = None /\ SFcompare y x = None.
Proof. destruct x; simpl; try discriminate. by destruct y. Qed.

Lemma SFcompare_numbers (x y : spec_float) :
  SFcompare x x = Some Eq -> SFcompare y y = Some Eq -> is_Some (SFcompare x y).
Proof.
  destruct x as [[]|[]| |[] m1 e1], y as [[]|[]| |[] m2 e2];
    simpl; try discriminate; eauto.
Qed.

(** NaN is below nothing and nothing is below NaN. *)
Lemma ltb_not_nan (x y : float) :
  PrimFloat.ltb x y = true ->
  PrimFloat.is_nan x = false /\ PrimFloat.is_nan y = false.
Proof.
  unfold PrimFloat.is_nan.
  rewrite FloatAxioms.ltb_spec, !FloatAxioms.eqb_spec. unfold SFltb, SFeqb.
  intros H.
  destruct (SFcompare_refl (Prim2SF x)) as [Hx|Hx];
    [apply (SFcompare_nan _ (Prim2SF y)) in Hx as [Hx _]; by rewrite Hx in H|].
  destruct (SFcompare_refl (Prim2SF y)) as [Hy|Hy];
    [apply (SFcompare_nan _ (Prim2SF x)) in Hy as [_ Hy]; by rewrite Hy in H|].
  by rewrite Hx, Hy.
Qed.

Lemma ltb_asym (x y : float) :
  PrimFloat.ltb x y = true -> PrimFloat.ltb y x = false.
Proof.
  rewrite !FloatAxioms.ltb_spec. unfold SFltb.
  rewrite (SFcompare_antisym (Prim2SF x)).
  by destruct (SFcompare _ _) as [[]|].
Qed.

(** Two numbers are comparable. *)
Lemma leb_total (x y : float) :
  PrimFloat.is_nan x = false -> PrimFloat.is_nan y = false ->
  PrimFloat.ltb y x = false -> PrimFloat.leb x y = true.
Proof.
  unfold PrimFloat.is_nan.
  rewrite FloatAxioms.ltb_spec, FloatAxioms.leb_spec, !FloatAxioms.eqb_spec.
  unfold SFltb, SFleb, SFeqb. intros Hx Hy.
  destruct (SFcompare_refl (Prim2SF x)) as [Hx'|Hx']; rewrite Hx' in Hx; [done|].
  destruct (SFcompare_refl (Prim2SF y)) as [Hy'|Hy']; rewrite Hy' in Hy; [done|].
  destruct (SFcompare_numbers _ _ Hx' Hy') as [c Hc].
  rewrite (SFcompare_antisym (Prim2SF x)), Hc. by destruct c.
Qed.

Lemma SFleb_trans (x y z : spec_float) :
  SFleb x y = true -> SFleb y z = true -> SFleb x z = true.
Proof.
  unfold SFleb.
  destruct x as [[]|[]| |[] m1 e1], y as [[]|[]| |[] m2 e2],
           z as [[]|[]| |[] m3 e3];
    simpl; try done;
    change (Pos.compare_cont Eq) with Pos.compare;
    destruct (Z.compare_spec e1 e2), (Z.compare_spec e2 e3),
             (Z.compare_spec e1 e3);
    try done; try lia;
    destruct (Pos.compare_spec m1 m2), (Pos.compare_spec m2 m3),
             (Pos.compare_spec m1 m3);
    simpl; try done; lia.
Qed.

Lemma leb_trans (x y z : float) :
  PrimFloat.leb x y = true -> PrimFloat.leb y z = true ->
  PrimFloat.leb x z = true.
Proof. rewrite !FloatAxioms.leb_spec. apply SFleb_trans. Qed.

Lemma leb_not_nan (x y : float) :
  PrimFloat.leb x y = true ->
  PrimFloat.is_nan x = false /\ PrimFloat.is_nan y = false.
Proof.
  unfold PrimFloat.is_nan.
  rewrite FloatAxioms.leb_spec, !FloatAxioms.eqb_spec. unfold SFleb, SFeqb.
  intros H.
  destruct (SFcompare_refl (Prim2SF x)) as [Hx|Hx];
    [apply (SFcompare_nan _ (Prim2SF y)) in Hx as [Hx _]; by rewrite Hx in H|].
  destruct (SFcompare_refl (Prim2SF y)) as [Hy|Hy];
    [apply (SFcompare_nan _ (Prim2SF x)) in Hy as [_ Hy]; by rewrite Hy in H|].
  by rewrite Hx, Hy.
Qed.

Lemma leb_not_ltb (x y : float) :
  PrimFloat.leb x y = true -> PrimFloat.ltb y x = false.
Proof.
  rewrite FloatAxioms.leb_spec, FloatAxioms.ltb_spec. unfold SFleb, SFltb.
  rewrite (SFcompare_antisym (Prim2SF x)).
  by destruct (SFcompare _ _) as [[]|].
Qed.

Lemma np_lt_asym (x y : float) : np_lt x y = true -> np_lt y x = false.
Proof.
  unfold np_lt. intros [H|[Hx Hy]%andb_prop]%orb_prop.
  - rewrite (ltb_asym _ _ H). apply ltb_not_nan in H as [-> _].
    by rewrite andb_false_r.
  - apply negb_true_iff in Hx. rewrite Hx, Hy. simpl.
    destruct (PrimFloat.ltb y x) eqn:H; [|done].
    apply ltb_not_nan in H as [H _]. congruence.
Qed.

(** When [y] does not go before [x], either [x <= y] or [y] is NaN. *)
Lemma np_lt_false (x y : float) :
  np_lt y x = false -> PrimFloat.leb x y = true \/ PrimFloat.is_nan y = true.
Proof.
  unfold np_lt. intros [H1 H2]%orb_false_elim.
  destruct (PrimFloat.is_nan y) eqn:Hy; [by right|left].
  simpl in H2. by apply leb_total.
Qed.

Lemma np_lt_false_2 (x y : float) :
  PrimFloat.leb x y = true \/ PrimFloat.is_nan y = true -> np_lt y x = false.
Proof.
  unfold np_lt. intros [H|H].
  - rewrite (leb_not_ltb _ _ H). apply leb_not_nan in H as [-> _].
    by rewrite andb_false_r.
  - rewrite H, andb_false_l, orb_false_r.
    destruct (PrimFloat.ltb y x) eqn:Hlt; [|done].
    apply ltb_not_nan in Hlt as [Hlt _]. congruence.
Qed.

(** Not going before is transitive. *)
Lemma np_lt_false_trans (x y z : float) :
  np_lt y x = false -> np_lt z y = false -> np_lt z x = false.
Proof.
  intros Hxy%np_lt_false Hyz%np_lt_false. apply np_lt_false_2.
  destruct Hyz as [Hyz|Hz]; [left | by right].
  destruct Hxy as [Hxy|Hy]; [by eapply leb_trans|].
  apply leb_not_nan in Hyz as [Hyz _]. congruence.
Qed.

(** *** The reference [argsort] *)

Lemma before_true tie a b : before tie a b = true -> np_lt b.2 a.2 = false.
Proof.
  unfold before. destruct (np_lt a.2 b.2) eqn:Hab; [intros _; by apply np_lt_asym|].
  by destruct (np_lt b.2 a.2).
Qed.

Lemma before_false tie a b : before tie a b = false -> np_lt a.2 b.2 = false.
Proof. unfold before. by destruct (np_lt a.2 b.2). Qed.

Lemma insert_sorted_perm lt a l : insert_sorted lt a l ≡ₚ a :: l.
Proof.
  induction l as [|b l IH]; simpl; [done|].
  destruct (lt a b); [done|]. rewrite IH. apply perm_swap.
Qed.

Lemma sort_positions_perm tie ds :
  sort_positions tie ds ≡ₚ zip (seq 0 (length ds)) ds.
Proof.
  unfold sort_positions. induction (zip _ _) as [|a l IH]; simpl; [done|].
  by rewrite insert_sorted_perm, IH.
Qed.

(** Insertion keeps a list sorted, for every relation [R] that the
    comparison decides on the elements at hand. *)
Lemma insert_sorted_Sorted (lt : nat * float -> nat * float -> bool)
    (R : relation (nat * float)) (P : nat * float -> Prop) a l :
  (forall a b, P a -> P b -> if lt a b then R a b else R b a) ->
  P a -> Forall P l -> Sorted R l -> Sorted R (insert_sorted lt a l).
Proof.
  intros Hlt Ha HP Hs. induction Hs as [|b l Hs IH Hhd]; simpl.
  - repeat constructor.
  - apply Forall_cons in HP as [Hb HP].
    pose proof (Hlt a b Ha Hb) as Hab. destruct (lt a b).
    + constructor; [by constructor|]. by constructor.
    + constructor; [by apply IH|].
      destruct Hhd as [|c l Hbc]; simpl; [by constructor|].
      destruct (lt a c); by constructor.
Qed.

Lemma foldr_insert_sorted_Sorted (lt : nat * float -> nat * float -> bool)
    (R : relation (nat * float)) (P : nat * float -> Prop) l :
  (forall a b, P a -> P b -> if lt a b then R a b else R b a) ->
  Forall P l -> Sorted R (foldr (insert_sorted lt) [] l).
Proof.
  intros Hlt. induction 1 as [|a l Ha HP IH]; simpl.
  - constructor.
  - apply (insert_sorted_Sorted lt R P); [done..| |done].
    clear IH. induction l as [|b l IH]; simpl; [done|].
    apply Forall_cons in HP as [Hb HP].
    rewrite insert_sorted_perm. constructor; [done | by apply IH].
Qed.

(** No key goes before the key to its left. *)
Lemma sort_positions_Sorted tie ds :
  Sorted (fun a b => np_lt b.2 a.2 = false) (sort_positions tie ds).
Proof.
  apply (foldr_insert_sorted_Sorted _ _ (fun _ => True)).
  - intros a b _ _. destruct (before tie a b) eqn:Hab.
    + by eapply before_true.
    + by eapply before_false.
  - by apply Forall_true.
Qed.


(** [argsort] lists every position once. *)
Lemma argsort_perm tie ds : argsort tie ds ≡ₚ seq 0 (length ds).
Proof.
  unfold argsort. rewrite sort_positions_perm.
  rewrite fst_zip; [done|]. by rewrite length_seq.
Qed.



(** [argsort] answers as numpy documents, whatever the rule for ties. *)
Lemma argsort_sound tie ds : np_sorted_positions ds (argsort tie ds).
Proof.
  split; [apply argsort_perm|]. unfold argsort.
  assert (Forall (fun a => ds !! a.1 = Some a.2) (sort_positions (tie ds) ds)) as HP.
  { rewrite sort_positions_perm. apply Forall_lookup_2. intros i [j x] H.
    apply lookup_zip_with_Some in H as (j' & x' & [= <- <-] & Hj & Hx).
    apply lookup_seq in Hj as [-> _]. done. }
  assert (Transitive (fun a b : nat * float => np_lt b.2 a.2 = false)) as Htrans
    by (intros a b c; apply np_lt_false_trans).
  pose proof (Sorted_StronglySorted _ _ (sort_positions_Sorted (tie ds) ds)) as Hs.
  clear Htrans. revert HP Hs. generalize (sort_positions (tie ds) ds). intros l HP Hs.
  induction Hs as [|c l Hs IH Hc]; intros j k a b x y Hjk Ha Hb Hx Hy;
    [by destruct j|].
  apply Forall_cons in HP as [Hc' HP].
  destruct k as [|k]; [lia|]. destruct j as [|j]; simpl in Ha, Hb.
  - injection Ha as <-. rewrite Hc' in Hx. injection Hx as <-.
    apply list_lookup_fmap_Some in Hb as (b' & -> & Hb).
    rewrite Forall_lookup in HP. rewrite (HP _ _ Hb) in Hy. injection Hy as <-.
    rewrite Forall_lookup in Hc. by apply (Hc k).
  - apply (IH HP j k a b); [lia|done..].
Qed.

(** *** Every answer of [np.argsort] is an answer of [argsort] *)

Lemma rank_lookup p a : a ∈ p -> p !! rank p a = Some a.
Proof.
  induction p as [|b p IH]; simpl; [by intros ?%elem_of_nil|].
  intros [->|Ha]%elem_of_cons; destruct (decide _); simplify_eq/=; auto.
Qed.

Lemma lookup_rank p k a : NoDup p -> p !! k = Some a -> rank p a = k.
Proof.
  intros Hp. revert k.
  induction Hp as [|b p Hb Hp IH]; intros [|k] Hk; simplify_eq/=.
  - by rewrite decide_True.
  - rewrite decide_False; [by rewrite (IH k)|].
    intros ->. by apply list_elem_of_lookup_2 in Hk.
Qed.

Lemma Sorted_lookup_2 {A} (R : A -> A -> Prop) (l : list A) :
  (forall i x y, l !! i = Some x -> l !! S i = Some y -> R x y) -> Sorted R l.
Proof.
  induction l as [|a l IH]; intros H; constructor.
  - apply IH. intros i x y Hx Hy. by apply (H (S i)).
  - destruct l as [|b l]; constructor. by apply (H 0).
Qed.

(** Sorting with the ties of [p] gives [p]. *)
Lemma sort_positions_complete ds p :
  np_sorted_positions ds p -> (sort_positions (tie_of p) ds).*1 = p.
Proof.
  intros [Hperm Hord].
  assert (NoDup p) as Hnd by (rewrite Hperm; apply NoDup_seq).
  assert ((sort_positions (tie_of p) ds).*1 ≡ₚ p) as Hsp.
  { rewrite sort_positions_perm, fst_zip, Hperm; [done|]. by rewrite length_seq. }
  assert (Transitive (fun a b => rank p a <= rank p b)) as Htrans
    by (intros a b c; lia).
  apply (Sorted_unique_strong (fun a b => rank p a <= rank p b)); [| | |done].
  - intros a b Ha Hb H1 H2. rewrite Hsp in Ha.
    apply rank_lookup in Ha, Hb.
    replace (rank p b) with (rank p a) in Hb by lia. congruence.
  - apply (Sorted_fmap _ (fun a b => rank p a.1 <= rank p b.1)); [done|].
    apply (foldr_insert_sorted_Sorted _ _
             (fun a => ds !! a.1 = Some a.2 /\ a.1 ∈ p)).
    + intros [a x] [b y] [Hx Ha] [Hy Hb]. simpl in *.
      apply rank_lookup in Ha, Hb.
      unfold before, tie_of. simpl.
      destruct (np_lt x y) eqn:Hxy, (np_lt y x) eqn:Hyx;
        try (destruct (Nat.ltb_spec (rank p a) (rank p b)); lia).
      * apply np_lt_asym in Hxy. congruence.
      * destruct (decide (rank p a <= rank p b)) as [|Hlt]; [done|].
        rewrite (Hord (rank p b) (rank p a) b a y x) in Hxy; [done|lia|done..].
      * destruct (decide (rank p b <= rank p a)) as [|Hlt]; [done|].
        rewrite (Hord (rank p a) (rank p b) a b x y) in Hyx; [done|lia|done..].
    + apply Forall_lookup_2. intros i [j x] H.
      apply lookup_zip_with_Some in H as (j' & x' & [= <- <-] & Hj & Hx).
      apply lookup_seq in Hj as [-> Hi]. split; [done|].
      rewrite Hperm. apply elem_of_seq. simpl. lia.
  - apply Sorted_lookup_2. intros i a b Ha Hb.
    rewrite (lookup_rank p i a), (lookup_rank p (S i) b) by done. lia.
Qed.

(** Whatever [np.argsort] does with equal keys, it is [argsort] for some
    rule for the ties. *)
Lemma argsort_complete (f : list float -> list nat) :
  (forall ds, np_sorted_positions ds (f ds)) ->
  exists tie, forall ds, argsort tie ds = f ds.
Proof.
  intros Hf. exists (fun ds => tie_of (f ds)). intros ds.
  by apply sort_positions_complete.
Qed.

(** The answers of [argsort] are the index lists that numpy documents, no
    more and no fewer. *)
Lemma argsort_spec (ds : list float) (p : list nat) :
  np_sorted_positions ds p <-> exists tie, argsort tie ds = p.
Proof.
  split.
  - intros Hp. exists (fun _ => tie_of p). by apply sort_positions_complete.
  - intros [tie <-]. apply argsort_sound.
Qed.



(** ** Frame and independence *)

(** C8. [get_batch] leaves the generator -- the cursors, the normalization
    statistics, the sequences of every partition -- and numpy's random state
    as it found them, whether it returns a batch or raises. *)
Theorem get_batch_no_side_effects (partition : string) (w : world) :
  snd (get_batch partition w) = w.
Proof. by rewrite get_batch_run. Qed.

(** C9. The batch does not depend on the duration-sort flag. *)
Theorem get_batch_ignores_sort_flag (partition : string) (g : AudioGenerator)
    (b : bool) (r : rng_state) :
  fst (get_batch partition {| self := set_sort_by_duration b g; np_random := r |})
  = fst (get_batch partition {| self := g; np_random := r |}).
Proof. rewrite !get_batch_run. reflexivity. Qed.

(** ** Failures *)

(** C2, at the failing input. On the partition [test], [get_batch] raises
    [AttributeError], whatever the generator holds. *)
Theorem get_batch_test_raises (w : world) :
  get_batch "test" w = (inl (AttributeError "test_valid_index"), w).
Proof. rewrite get_batch_run. reflexivity. Qed.

(** ** When [get_batch] returns *)

Lemma max_ok (l : list nat) : l <> [] -> Py.max l = inr (max_list l).
Proof. intros H. by apply max_inr. Qed.

(** The body returns a batch when the partition is [train] or [valid], the
    window lies within it, the features of the window are computed and have
    the width of the input tensor (or width 1), and every transcript of the
    window is encoded in no more integers than the label tensor is wide. *)
Lemma get_batch_body_ok (g : AudioGenerator) (partition : string)
    (paths : list string) (txts : list string) (c n : nat)
    (features : list ndarray2) :
  select_partition g partition = inr (paths, Z.of_nat c, txts) ->
  minimum_batch_size g = Z.of_nat n -> 0 < n ->
  c + n <= length paths -> c + n <= length txts ->
  window_features g (take n (drop c paths)) = inr features ->
  Forall (fun f => ncols f = input_dim g \/ ncols f = 1) features ->
  Forall (fun t => exists label,
              text_to_int_sequence t = inr label /\
              length label <= max_list (String.length <$> take n (drop c txts)))
         (take n (drop c txts)) ->
  exists inputs,
    get_batch_body g partition = inr (inputs, {| ctc := replicate n 0%float |}) /\
    loop_inv features txts (Z.of_nat c) n
             (max_list (nrows <$> features)) (input_dim g)
             (max_list (String.length <$> take n (drop c txts))) n inputs.
Proof.
  intros Hsel Hbs Hn Hpaths Htxts Hfeat Hfit Henc.
  assert (length features = n) as Hfl.
  { apply mapM_inr_length in Hfeat. rewrite Hfeat, length_take, length_drop. lia. }
  set (T := max_list (nrows <$> features)).
  set (W := max_list (String.length <$> take n (drop c txts))) in *.
  pose proof (mapM_index_prefix_ok nrows features n) as Hlens.
  rewrite take_ge in Hlens by lia.
  pose proof (mapM_index_window_ok String.length txts c n Htxts) as Hslens.
  destruct (foldM_range_total
              (loop_inv features txts (Z.of_nat c) n T (input_dim g) W)
              (batch_step features txts (Z.of_nat c))
              n (fresh_arrays n T (input_dim g) W)) as (inputs & Hloop & Hinv).
  { apply loop_inv_fresh. }
  { intros k st Hk Hst.
    destruct (lookup_lt_is_Some_2 features k) as (feat & Hfeatk); [lia|].
    destruct (lookup_lt_is_Some_2 (take n (drop c txts)) k) as (text & Htext).
    { rewrite length_take, length_drop. lia. }
    destruct (proj1 (Forall_lookup _ _) Henc k text Htext) as (label & Hlabel & Hle).
    destruct (batch_step_ok features txts (Z.of_nat c) n T (input_dim g) W
                            k st feat text label) as (st' & Hst'); try done.
    - apply max_list_elem_of_le, list_elem_of_fmap. exists feat.
      split; [done|]. by eapply list_elem_of_lookup_2.
    - by apply (proj1 (Forall_lookup _ _) Hfit k feat).
    - rewrite <- Nat2Z.inj_add. apply index_nat_inr.
      rewrite lookup_take_lt, lookup_drop in Htext by done. done.
    - exists st'. split; [done|]. by eapply batch_step_inv. }
  exists inputs. split; [|done].
  unfold get_batch_body. rewrite Hsel. simpl. rewrite Hbs.
  rewrite slice_window by done. rewrite Hfeat. simpl.
  rewrite Hlens by lia. simpl.
  rewrite max_ok by (destruct features; simpl in *; [lia | done]). simpl.
  rewrite Hslens. simpl.
  rewrite max_ok.
  2:{ intros Hnil. apply (f_equal length) in Hnil.
      rewrite length_fmap, length_take, length_drop in Hnil. simpl in Hnil. lia. }
  simpl. rewrite Nat2Z.id. fold T W.
  unfold fresh_arrays in Hloop. simpl in Hloop. rewrite Hloop. done.
Qed.

(** What a finished batch holds for the transcript at position [i] of a
    window that lies within the partition. *)
Lemma loop_inv_label_row features txts (c n T D W : nat) (inputs : Inputs)
    (i : nat) (t : string) :
  loop_inv features txts (Z.of_nat c) n T D W n inputs ->
  take n (drop c txts) !! i = Some t ->
  exists label row,
    text_to_int_sequence t = inr label /\
    the_labels inputs !! i = Some row /\ length row = W /\
    label_length inputs !! i = Some [Z.of_nat (length label)] /\
    (length label <= W \/ (length label = 1 /\ W = 0)).
Proof.
  intros (_ & _ & _ & _ & Hdone & _) Ht.
  assert (i < n) as Hi.
  { apply lookup_lt_Some in Ht. rewrite length_take in Ht. lia. }
  rewrite lookup_take_lt, lookup_drop in Ht by done.
  destruct (Hdone i Hi) as (feat & text & label & m & row
                            & _ & Htext & Henc & _ & Hll & _ & _ & Hrow & Hw).
  rewrite <- Nat2Z.inj_add in Htext. apply index_nat_inr in Htext.
  rewrite Ht in Htext. injection Htext as <-.
  apply assign_prefix_blank in Hw as (Hlen & Hfit & _ & _).
  exists label, row. done.
Qed.

(** C10. For a window of [train] or [valid] whose features are computed
    and fit the input tensor: [get_batch] returns a batch in which every
    label sequence was written within the width of its row and
    [label_length] holds the character counts of the transcripts, if and only
    if the encoder gives every transcript of the window exactly as many
    integers as it has characters. *)
Theorem get_batch_label_write_fits (partition : string) (w : world)
    (pd : partition_data) (c : Z) (features : list ndarray2) :
  select_partition (self w) partition = inr (audio_paths pd, c, texts pd) ->
  window_within (self w) partition ->
  (0 < minimum_batch_size (self w))%Z ->
  window_features (self w)
    (window_of (audio_paths pd) c (minimum_batch_size (self w))) = inr features ->
  Forall (fun f => ncols f = input_dim (self w) \/ ncols f = 1) features ->
  let ts := window_of (texts pd) c (minimum_batch_size (self w)) in
  (exists inputs outputs,
      fst (get_batch partition w) = inr (inputs, outputs) /\
      Forall2 (fun t row => exists label,
                   text_to_int_sequence t = inr label /\ length label <= length row)
              ts (the_labels inputs) /\
      label_length inputs = (fun t => [Z.of_nat (String.length t)]) <$> ts)
  <->
  Forall (fun t => exists label,
              text_to_int_sequence t = inr label /\ length label = String.length t)
         ts.
Proof.
  intros Hsel Hwin Hpos Hfeat Hfit ts. subst ts.
  destruct (select_partition_inr _ _ _ _ _ Hsel) as (pd' & Hpd' & Hpaths & Htexts & _).
  unfold window_within in Hwin. rewrite Hpd' in Hwin.
  rewrite <- Hpaths, <- Htexts in Hwin. destruct Hwin as (Hc & _ & Hlp & Hlt).
  set (n := Z.to_nat (minimum_batch_size (self w))).
  set (c' := Z.to_nat c).
  assert (minimum_batch_size (self w) = Z.of_nat n) as Hbs by lia.
  assert (c = Z.of_nat c') as Hcc by lia.
  unfold window_of in *. fold n c' in Hfeat |- *.
  rewrite Hcc in Hsel.
  assert (length (take n (drop c' (texts pd))) = n) as Hlts.
  { rewrite length_take, length_drop. lia. }
  rewrite get_batch_run. simpl. split.
  - intros (inputs & outputs & Hrun & _ & Hll).
    apply get_batch_body_inr in Hrun
      as (paths & c0 & txts & features0 & lengths & T & slens & W & n0
          & Hsel0 & Hbs0 & _ & _ & _ & _ & _ & _ & Hinv & _).
    rewrite Hsel in Hsel0. injection Hsel0 as <- <- <-.
    assert (n0 = n) as -> by lia.
    apply Forall_lookup_2. intros i t Ht.
    destruct (loop_inv_label_row _ _ _ _ _ _ _ _ i t Hinv Ht)
      as (label & row & Henc & _ & _ & Hli & _).
    exists label. split; [done|].
    rewrite Hll, list_lookup_fmap, Ht in Hli. simpl in Hli.
    injection Hli as Hli. lia.
  - intros Hone.
    destruct (get_batch_body_ok (self w) partition (audio_paths pd) (texts pd)
                                c' n features) as (inputs & Hrun & Hinv);
      try done; try lia.
    { apply Forall_lookup_2. intros i t Ht.
      destruct (proj1 (Forall_lookup _ _) Hone i t Ht) as (label & Henc & Hlen).
      exists label. split; [done|].
      rewrite Hlen. apply max_list_elem_of_le, list_elem_of_fmap.
      exists t. split; [done|]. by eapply list_elem_of_lookup_2. }
    exists inputs, {| ctc := replicate n 0%float |}. split; [done|].
    pose proof Hinv as (_ & L2 & _ & L4 & _ & _). split.
    + apply Forall2_same_length_lookup_2; [by rewrite Hlts, L2|].
      intros i t row Ht Hrow.
      destruct (loop_inv_label_row _ _ _ _ _ _ _ _ i t Hinv Ht)
        as (label & row' & Henc & Hrow' & Hw & _ & _).
      rewrite Hrow in Hrow'. injection Hrow' as <-.
      exists label. split; [done|].
      destruct (proj1 (Forall_lookup _ _) Hone i t Ht) as (label' & Henc' & Hlen').
      rewrite Henc in Henc'. injection Henc' as <-.
      rewrite Hw, Hlen'. apply max_list_elem_of_le, list_elem_of_fmap.
      exists t. split; [done|]. by eapply list_elem_of_lookup_2.
    + apply (list_eq_same_length _ _ n); [by rewrite length_fmap| done |].
      intros i x y Hi Hx Hy.
      rewrite list_lookup_fmap in Hy.
      destruct (take n (drop c' (texts pd)) !! i) as [t|] eqn:Ht; [|done].
      simpl in Hy. injection Hy as <-.
      destruct (loop_inv_label_row _ _ _ _ _ _ _ _ i t Hinv Ht)
        as (label & row & Henc & _ & _ & Hli & _).
      rewrite Hx in Hli. injection Hli as ->.
      destruct (proj1 (Forall_lookup _ _) Hone i t Ht) as (label' & Henc' & Hlen').
      rewrite Henc in Henc'. injection Henc' as <-. by rewrite Hlen'.
Qed.

(** ** Normalization *)

Lemma binop_inr (op : float -> float -> float) (m : ndarray2) (v : list float)
    (r : ndarray2) :
  Np.binop op m v = inr r ->
  nrows r = nrows m /\
  (ncols m = length v /\ ncols r = ncols m \/
   ncols m = 1 /\ ncols r = length v \/
   length v = 1 /\ ncols r = ncols m).
Proof.
  unfold Np.binop, Np.broadcast_dim, nrows.
  repeat case_decide; simpl; try done; intros [= <-]; simpl;
    rewrite length_fmap; (split; [done|]); auto.
Qed.

(** [normalize] keeps the number of time-steps. *)
Lemma normalize_nrows (g : AudioGenerator) (feature m : ndarray2) (eps : float) :
  normalize g feature eps = inr m -> nrows m = nrows feature.
Proof.
  unfold normalize. intros (centered & H1 & H2)%bind_inr.
  apply binop_inr in H1 as [E1 _]. apply binop_inr in H2 as [E2 _]. congruence.
Qed.

(** C5, at the failing input. In cepstral mode the statistics still have
    the length the spectrogram parameters give, so a feature matrix with
    [mfcc_dim] columns cannot be normalized unless the two dimensions agree
    or one of them is 1. *)
Theorem normalize_cepstral_shape_mismatch (step window max_freq : Z)
    (mfcc_dim : nat) (minimum_batch_size : Z) (max_duration : float)
    (sort_by_duration : bool) (train valid test : partition_data)
    (feature : ndarray2) :
  ncols feature = mfcc_dim ->
  mfcc_dim <> calc_feat_dim window max_freq ->
  mfcc_dim <> 1 -> calc_feat_dim window max_freq <> 1 ->
  normalize (init step window max_freq mfcc_dim minimum_batch_size false
                  max_duration sort_by_duration train valid test)
            feature default_eps
  = inl ValueError.
Proof.
  intros Hcols Hne H1 H2. unfold normalize, init, Np.binop, Np.broadcast_dim. simpl.
  rewrite length_replicate, Hcols.
  rewrite !decide_False by done. reflexivity.
Qed.

(** ** Which exceptions can be raised *)

Lemma npe_inr {A} (a : A) : no_py_exception (inr a : result A).
Proof. intros msg. discriminate. Qed.

Lemma npe_bind {A B} (m : result A) (f : A -> result B) :
  no_py_exception m -> (forall a, no_py_exception (f a)) -> no_py_exception (m ≫= f).
Proof.
  intros Hm Hf msg. destruct m as [e|a]; simpl.
  - intros [= ->]. by apply (Hm msg).
  - apply Hf.
Qed.

Lemma npe_fmap {A B} (f : A -> B) (m : result A) :
  no_py_exception m -> no_py_exception (f <$> m).
Proof.
  intros Hm msg. destruct m as [e|a]; simpl; [|discriminate].
  intros [= ->]. by apply (Hm msg).
Qed.

Lemma npe_external {A} (r : string + A) : no_py_exception (external r).
Proof. intros msg. destruct r; discriminate. Qed.

Lemma npe_mapM {A B} (f : A -> result B) (l : list A) :
  (forall x, no_py_exception (f x)) -> no_py_exception (mapM f l).
Proof.
  intros Hf. induction l as [|x l IH]; simpl; [apply npe_inr|].
  apply npe_bind; [apply Hf|]. intros y.
  apply npe_bind; [apply IH|]. intros k. apply npe_inr.
Qed.

Lemma npe_foldM {A B} (f : B -> A -> result B) (l : list A) (acc : B) :
  (forall st x, no_py_exception (f st x)) -> no_py_exception (foldM f acc l).
Proof.
  intros Hf. revert acc. induction l as [|x l IH]; intros acc; simpl; [apply npe_inr|].
  apply npe_bind; [apply Hf | apply IH].
Qed.

Lemma npe_norm_index (len : nat) (i : Z) : no_py_exception (Py.norm_index len i).
Proof. intros msg. unfold Py.norm_index. repeat case_decide; discriminate. Qed.

Lemma npe_index {A} (l : list A) (i : Z) : no_py_exception (Py.index l i).
Proof.
  unfold Py.index. apply npe_bind; [apply npe_norm_index|].
  intros k msg. destruct (l !! k); discriminate.
Qed.

Lemma npe_max (l : list nat) : no_py_exception (Py.max l).
Proof. intros msg. destruct l; discriminate. Qed.

Lemma npe_update_row {A} (arr : list A) (i : Z) (f : A -> result A) :
  (forall r, no_py_exception (f r)) -> no_py_exception (Np.update_row arr i f).
Proof.
  intros Hf. unfold Np.update_row. apply npe_bind; [apply npe_norm_index|].
  intros k. destruct (arr !! k) as [r|]; [|intros msg; discriminate].
  apply npe_bind; [apply Hf|]. intros r'. apply npe_inr.
Qed.

Lemma npe_assign_rows (target feat : ndarray2) :
  no_py_exception (Np.assign_rows target feat).
Proof. intros msg. unfold Np.assign_rows. repeat case_decide; discriminate. Qed.

Lemma npe_assign_prefix (row label : list Z) :
  no_py_exception (Np.assign_prefix row label).
Proof. intros msg. unfold Np.assign_prefix. case_decide; discriminate. Qed.

Lemma npe_binop op (m : ndarray2) (v : list float) : no_py_exception (Np.binop op m v).
Proof.
  intros msg. unfold Np.binop, Np.broadcast_dim. repeat case_decide; discriminate.
Qed.

Lemma npe_normalize (g : AudioGenerator) (feature : ndarray2) (eps : float) :
  no_py_exception (normalize g feature eps).
Proof. unfold normalize. apply npe_bind; [apply npe_binop|]. intros c. apply npe_binop. Qed.

Lemma npe_featurize (g : AudioGenerator) (clip : string) :
  no_py_exception (featurize g clip).
Proof.
  unfold featurize. destruct (spectrogram g); [apply npe_external|].
  apply npe_bind; [apply npe_external|]. intros [rate sig]. apply npe_external.
Qed.

Lemma npe_batch_step features txts c st i :
  no_py_exception (batch_step features txts c st i).
Proof.
  unfold batch_step.
  apply npe_bind; [apply npe_index|]. intros feat.
  apply npe_bind; [apply npe_update_row; intros r; apply npe_inr|]. intros il.
  apply npe_bind; [apply npe_update_row; intros r; apply npe_assign_rows|]. intros id.
  apply npe_bind; [apply npe_index|]. intros text.
  apply npe_bind; [apply npe_external|]. intros label.
  apply npe_bind; [apply npe_update_row; intros r; apply npe_assign_prefix|]. intros lb.
  apply npe_bind; [apply npe_update_row; intros r; apply npe_inr|]. intros ll.
  apply npe_inr.
Qed.

(** X1. [get_batch] raises its "Invalid partition" exception exactly when the
    partition is none of [train], [valid] and [test]. *)
Theorem get_batch_invalid_partition (partition : string) (w : world) :
  (exists msg, fst (get_batch partition w) = inl (PyException msg)) <->
  partition <> "train" /\ partition <> "valid" /\ partition <> "test".
Proof.
  rewrite get_batch_run. simpl. split.
  - intros [msg Hraise].
    destruct (decide (partition = "train" \/ partition = "valid" \/ partition = "test"))
      as [Hin|Hout]; [|tauto].
    exfalso. revert Hraise. unfold get_batch_body.
    apply npe_bind.
    + intros msg'. unfold select_partition.
      repeat case_decide; try discriminate; tauto.
    + intros [[paths c] txts].
      apply npe_bind; [apply npe_mapM; intros a; apply npe_bind;
                       [apply npe_featurize | intros f; apply npe_normalize]|].
      intros features.
      apply npe_bind; [apply npe_mapM; intros i; apply npe_fmap, npe_index|].
      intros lengths. apply npe_bind; [apply npe_max|]. intros T.
      apply npe_bind; [apply npe_mapM; intros i; apply npe_fmap, npe_index|].
      intros slens. apply npe_bind; [apply npe_max|]. intros W.
      apply npe_bind; [apply npe_foldM; intros st i; apply npe_batch_step|].
      intros inputs. apply npe_inr.
  - intros (H1 & H2 & H3). unfold get_batch_body, select_partition.
    rewrite !decide_False by done. simpl. eauto.
Qed.

(** X2. [shuffle_data_by_partition] raises its "Invalid partition" exception
    exactly when the partition is neither [train] nor [valid]. *)
Theorem shuffle_data_by_partition_invalid (partition : string) (w : world) :
  (exists msg, fst (shuffle_data_by_partition partition w) = inl (PyException msg)) <->
  partition <> "train" /\ partition <> "valid".
Proof.
  assert (forall paths ds txts msg,
            fst (shuffle_data paths ds txts w) <> inl (PyException msg)) as Hsh.
  { intros paths ds txts msg. unfold shuffle_data, mbind, M_bind, permutation, lift.
    destruct (np_random_permutation (np_random w) (length paths)) as [p r]. simpl.
    apply npe_bind; [apply npe_mapM; intros i; apply npe_index|]. intros a.
    apply npe_bind; [apply npe_mapM; intros i; apply npe_index|]. intros d.
    apply npe_bind; [apply npe_mapM; intros i; apply npe_index|]. intros t.
    apply npe_inr. }
  unfold shuffle_data_by_partition. split.
  - intros [msg Hraise]. revert Hraise. repeat case_decide; try tauto.
    + unfold mbind, M_bind, ask. simpl.
      pose proof (Hsh (train_audio_paths (self w)) (train_durations (self w))
                      (train_texts (self w)) msg) as Hne.
      destruct (shuffle_data _ _ _ w) as [[e|[[a d] t]] w']; simpl in *; [congruence|].
      discriminate.
    + unfold mbind, M_bind, ask. simpl.
      pose proof (Hsh (valid_audio_paths (self w)) (valid_durations (self w))
                      (valid_texts (self w)) msg) as Hne.
      destruct (shuffle_data _ _ _ w) as [[e|[[a d] t]] w']; simpl in *; [congruence|].
      discriminate.
  - intros (H1 & H2). rewrite !decide_False by done. simpl. eauto.
Qed.

(** X3. [get_batch] returns a batch on [train] and [valid] when the window lies
    within the partition, the batch size is positive, the features of the
    window are computed and have the width of the input tensor, and the
    encoder gives every transcript of the window as many integers as it has
    characters. *)
Theorem get_batch_returns (partition : string) (w : world)
    (pd : partition_data) (c : Z) (features : list ndarray2) :
  select_partition (self w) partition = inr (audio_paths pd, c, texts pd) ->
  window_within (self w) partition ->
  (0 < minimum_batch_size (self w))%Z ->
  window_features (self w)
    (window_of (audio_paths pd) c (minimum_batch_size (self w))) = inr features ->
  Forall (fun f => ncols f = input_dim (self w) \/ ncols f = 1) features ->
  Forall (fun t => exists label,
              text_to_int_sequence t = inr label /\ length label = String.length t)
         (window_of (texts pd) c (minimum_batch_size (self w))) ->
  exists inputs outputs, fst (get_batch partition w) = inr (inputs, outputs).
Proof.
  intros Hsel Hwin Hpos Hfeat Hfit Henc.
  destruct (select_partition_inr _ _ _ _ _ Hsel) as (pd' & Hpd' & Hpaths & Htexts & _).
  unfold window_within in Hwin. rewrite Hpd' in Hwin.
  rewrite <- Hpaths, <- Htexts in Hwin. destruct Hwin as (Hc & _ & Hlp & Hlt).
  unfold window_of in *.
  replace c with (Z.of_nat (Z.to_nat c)) in Hsel by lia.
  destruct (get_batch_body_ok (self w) partition (audio_paths pd) (texts pd)
              (Z.to_nat c) (Z.to_nat (minimum_batch_size (self w))) features)
    as (inputs & Hrun & _); try done; try lia.
  - apply Forall_lookup_2. intros i t Ht.
    destruct (proj1 (Forall_lookup _ _) Henc i t Ht) as (label & Hl & Hlen).
    exists label. split; [done|].
    rewrite Hlen. apply max_list_elem_of_le, list_elem_of_fmap.
    exists t. split; [done|]. by eapply list_elem_of_lookup_2.
  - rewrite get_batch_run. simpl. eauto.
Qed.

(** A binary operation with a vector as long as the matrix is wide works
    row by row. *)
Lemma binop_same_width (op : float -> float -> float) (m : ndarray2) (v : list float) :
  ncols m = length v -> wf_ndarray2 m ->
  Np.binop op m v
  = inr {| ncols := ncols m; mrows := (fun r => zip_with op r v) <$> mrows m |}.
Proof.
  intros Hcols Hwf. unfold Np.binop, Np.broadcast_dim.
  rewrite decide_True by done. unfold mbind, result_bind. f_equal. f_equal.
  apply Forall_fmap_ext_1. eapply Forall_impl; [exact Hwf|].
  intros row Hrow. unfold Np.stretch. cbv beta.
  rewrite decide_True by done. rewrite decide_True by done. done.
Qed.

(** X4. In spectrogram mode, with the statistics the constructor sets, a
    feature matrix of [feat_dim] columns is normalized entry by entry to
    [(x - 0) / (1 + eps)]. *)
Theorem normalize_spectrogram (step window max_freq : Z)
    (mfcc_dim : nat) (minimum_batch_size : Z) (max_duration : float)
    (sort_by_duration : bool) (train valid test : partition_data)
    (feature : ndarray2) :
  ncols feature = calc_feat_dim window max_freq ->
  wf_ndarray2 feature ->
  normalize (init step window max_freq mfcc_dim minimum_batch_size true
                  max_duration sort_by_duration train valid test)
            feature default_eps
  = inr {| ncols := ncols feature;
           mrows := (fun row : list float =>
                       (fun x : float =>
                          PrimFloat.div (PrimFloat.sub x 0%float)
                                        (PrimFloat.add 1%float default_eps))
                         <$> row) <$> mrows feature |}.
Proof.
  intros Hcols Hwf. unfold normalize, init.
  cbn [feats_mean feats_std]. unfold Np.add_scalar.
  rewrite fmap_replicate.
  rewrite binop_same_width by (rewrite ?length_replicate; done).
  unfold mbind, result_bind.
  rewrite binop_same_width; cbn [ncols mrows].
  - f_equal. f_equal. rewrite <- list_fmap_compose.
    apply Forall_fmap_ext_1. eapply Forall_impl; [exact Hwf|].
    intros row Hrow. unfold compose. cbv beta in Hrow. rewrite Hcols in Hrow.
    rewrite (zip_with_replicate_r_eq _ _ _ row Hrow).
    rewrite zip_with_replicate_r_eq by (by rewrite length_fmap).
    rewrite <- list_fmap_compose. done.
  - by rewrite length_replicate.
  - unfold wf_ndarray2. cbn [ncols mrows]. apply Forall_fmap.
    eapply Forall_impl; [exact Hwf|]. intros row Hrow. unfold compose.
    cbv beta in Hrow. rewrite length_zip_with, length_replicate. lia.
Qed.

(** ** Edge behaviour of [get_batch] *)

(** A slice that starts within or after the list and whose upper bound is
    at or past the end is the rest of the list. *)
Lemma slice_past_end {A} (l : list A) (c n : Z) :
  (0 <= c)%Z -> (Z.of_nat (length l) <= c + n)%Z ->
  Py.slice l c (c + n) = drop (Z.to_nat c) l.
Proof.
  intros Hc Hn. unfold Py.slice, Py.clamp. rewrite !decide_False by lia.
  rewrite Z.min_r by lia. rewrite Nat2Z.id.
  destruct (decide (c <= Z.of_nat (length l))%Z) as [Hle|Hgt].
  - rewrite Z.min_l by lia. apply take_ge. rewrite length_drop. lia.
  - rewrite Z.min_r by lia. rewrite Nat2Z.id, Nat.sub_diag.
    rewrite take_0. symmetry. apply drop_ge. lia.
Qed.

(** Reading positions [0 .. n-1] of a list with fewer than [n] elements
    raises [IndexError]. *)
Lemma mapM_index_short {A B} (f : A -> B) (l : list A) (d j : nat) :
  j <= length l -> length l < j + d ->
  mapM (fun i => f <$> Py.index l i) (Z.of_nat <$> seq j d) = inl IndexError.
Proof.
  revert j. induction d as [|d IH]; intros j Hj Hd; [lia|].
  change (mapM (fun i => f <$> Py.index l i) (Z.of_nat <$> seq j (S d)))
    with (y ← f <$> Py.index l (Z.of_nat j);
          k ← mapM (fun i => f <$> Py.index l i) (Z.of_nat <$> seq (S j) d);
          (inr (y :: k) : result (list B))).
  rewrite index_nat.
  destruct (l !! j) as [x|] eqn:Hx.
  - apply lookup_lt_Some in Hx. rewrite (IH (S j)) by lia. done.
  - done.
Qed.

(** X5. With a batch size of zero or less, [get_batch] on [train] or [valid]
    raises [ValueError], from [max] of an empty list, once the clips of the
    slice [audio_paths[c:c+bs]] are featurized; for a batch size of zero
    there is no such clip. *)
Theorem get_batch_nonpositive_batch_size (partition : string) (w : world)
    (paths txts : list string) (c : Z) :
  select_partition (self w) partition = inr (paths, c, txts) ->
  (minimum_batch_size (self w) <= 0)%Z ->
  (minimum_batch_size (self w) = 0%Z \/
   exists features,
     window_features (self w)
       (Py.slice paths c (c + minimum_batch_size (self w))) = inr features) ->
  fst (get_batch partition w) = inl ValueError.
Proof.
  intros Hsel Hbs Hfeat. rewrite get_batch_run. simpl. unfold get_batch_body.
  rewrite Hsel. simpl.
  assert (exists features,
            window_features (self w)
              (Py.slice paths c (c + minimum_batch_size (self w))) = inr features)
    as (features & ->).
  { destruct Hfeat as [->|Hfeat]; [|done]. exists [].
    unfold Py.slice. rewrite Z.add_0_r, Nat.sub_diag. done. }
  simpl. unfold Py.range.
  replace (Z.to_nat (minimum_batch_size (self w))) with 0 by lia.
  reflexivity.
Qed.

(** X6. When the window starts at a cursor that is not negative and runs
    past the end of the partition, and the clips that are left are
    featurized, [get_batch] raises [IndexError]: it never returns a batch of
    fewer examples. *)
Theorem get_batch_window_past_end (partition : string) (w : world)
    (paths txts : list string) (c : Z) (features : list ndarray2) :
  select_partition (self w) partition = inr (paths, c, txts) ->
  (0 <= c)%Z -> (0 < minimum_batch_size (self w))%Z ->
  (Z.of_nat (length paths) < c + minimum_batch_size (self w))%Z ->
  window_features (self w) (drop (Z.to_nat c) paths) = inr features ->
  fst (get_batch partition w) = inl IndexError.
Proof.
  intros Hsel Hc Hpos Hend Hfeat. rewrite get_batch_run. simpl.
  unfold get_batch_body. rewrite Hsel. simpl.
  rewrite slice_past_end by lia. rewrite Hfeat. simpl.
  apply mapM_inr_length in Hfeat. rewrite length_drop in Hfeat.
  unfold Py.range. rewrite mapM_index_short; [done | lia | lia].
Qed.

(** ** What a returned batch holds *)

Lemma stretch_length {A} (d : A) (n : nat) (r : list A) :
  length (Np.stretch d n r) = n.
Proof. unfold Np.stretch. case_decide; [done | apply length_replicate]. Qed.

Lemma stretch_id {A} (d : A) (n : nat) (r : list A) :
  length r = n -> Np.stretch d n r = r.
Proof. intros H. unfold Np.stretch. by rewrite decide_True. Qed.

(** The block a feature matrix is written into starts with the rows of the
    matrix, each as wide as the block, and is rectangular. *)
Lemma assign_rows_zeros_prefix (T D : nat) (feat m : ndarray2) :
  Np.assign_rows (Np.zeros2 T D) feat = inr m ->
  wf_ndarray2 m /\
  (nrows feat <= T ->
   take (nrows feat) (mrows m) = Np.stretch 0%float D <$> mrows feat).
Proof.
  unfold Np.assign_rows, nrows. simpl. rewrite length_replicate.
  case_decide as Ht; [|done]. case_decide as Hd; [|done].
  intros [= <-]. split.
  - unfold wf_ndarray2. simpl. apply Forall_app. split.
    + apply Forall_fmap, Forall_true. intros r. apply stretch_length.
    + apply Forall_drop, Forall_replicate. apply length_replicate.
  - intros Hle. simpl. rewrite Nat.min_l by done.
    rewrite firstn_all. rewrite take_app_length'; [done|].
    by rewrite length_fmap.
Qed.

(** The rows of a returned batch, example by example: the features and the
    transcript of the window they were written from. *)
Lemma get_batch_body_rows (g : AudioGenerator) (partition : string)
    (pd : partition_data) (c : Z) (inputs : Inputs) (outputs : Outputs) :
  partition_state g partition = Some (pd, c) ->
  window_within g partition ->
  get_batch_body g partition = inr (inputs, outputs) ->
  exists features,
    window_features g (window_of (audio_paths pd) c (minimum_batch_size g))
      = inr features /\
    forall i : nat, (Z.of_nat i < minimum_batch_size g)%Z ->
      exists feat text label m row,
        features !! i = Some feat /\
        window_of (texts pd) c (minimum_batch_size g) !! i = Some text /\
        text_to_int_sequence text = inr label /\
        the_input inputs !! i = Some m /\
        input_length inputs !! i = Some [Z.of_nat (nrows feat)] /\
        wf_ndarray2 m /\
        take (nrows feat) (mrows m) = Np.stretch 0%float (input_dim g) <$> mrows feat /\
        the_labels inputs !! i = Some row /\
        label_length inputs !! i = Some [Z.of_nat (length label)] /\
        (length label <= length row \/ (length label = 1 /\ length row = 0)) /\
        (length label <= length row -> take (length label) row = label).
Proof.
  intros Hpd Hwin Hrun.
  unfold window_within in Hwin. rewrite Hpd in Hwin.
  destruct Hwin as (Hc & _ & Hpaths & Htexts).
  apply get_batch_body_inr in Hrun
    as (paths & c' & txts & features & lengths & T & slens & W & n
        & Hsel & Hbs & Hn & Hfeat & Hlen & Hmax & Hslen & Hsmax & Hinv & _).
  apply select_partition_inr in Hsel as (pd' & Hpd' & -> & -> & _).
  rewrite Hpd in Hpd'. injection Hpd' as <- <-.
  rewrite Hbs in *. unfold window_of. rewrite Nat2Z.id.
  replace c with (Z.of_nat (Z.to_nat c)) in Hfeat, Hinv by lia.
  rewrite slice_window in Hfeat by lia.
  exists features. split; [done|]. intros i Hi.
  destruct Hinv as (_ & _ & _ & _ & Hdone & _).
  destruct (Hdone i) as (feat & text & label & m & row
                         & Hfi & Htext & Henc & Hil & Hll & Hm & Hwm & Hrow & Hwrow);
    [lia|].
  exists feat, text, label, m, row.
  rewrite <- Nat2Z.inj_add in Htext. apply index_nat_inr in Htext.
  assert (nrows feat <= T) as HT.
  { destruct (mapM_inr_lookup _ _ _ i _ Hlen (range_lookup n i ltac:(lia)))
      as (x & Hx & Hf).
    rewrite index_nat, Hfi in Hf. simpl in Hf. injection Hf as <-.
    apply max_spec in Hmax as [_ Hub]. apply Hub.
    by eapply list_elem_of_lookup_2. }
  apply assign_rows_zeros_prefix in Hwm as (Hwf & Hpre).
  apply assign_prefix_blank in Hwrow as (Hlen_row & Hfit & Hcopy & _).
  rewrite lookup_take_lt, lookup_drop by lia.
  rewrite Hlen_row. repeat split; auto.
Qed.

(** X7. A returned batch holds every example of the window unabridged: the
    block of example [i] starts with the rows of its normalized feature
    matrix (each broadcast to the width of the tensor), [input_length[i]] is
    the number of those rows, the label row starts with the whole encoded
    transcript and [label_length[i]] is its length. *)
Theorem get_batch_copies_examples (partition : string) (w : world)
    (pd : partition_data) (c : Z) (inputs : Inputs) (outputs : Outputs) :
  partition_state (self w) partition = Some (pd, c) ->
  window_within (self w) partition ->
  fst (get_batch partition w) = inr (inputs, outputs) ->
  exists features,
    window_features (self w)
      (window_of (audio_paths pd) c (minimum_batch_size (self w))) = inr features /\
    forall i : nat, (Z.of_nat i < minimum_batch_size (self w))%Z ->
      exists feat text label m row,
        features !! i = Some feat /\
        window_of (texts pd) c (minimum_batch_size (self w)) !! i = Some text /\
        text_to_int_sequence text = inr label /\
        the_input inputs !! i = Some m /\
        input_length inputs !! i = Some [Z.of_nat (nrows feat)] /\
        take (nrows feat) (mrows m)
          = Np.stretch 0%float (input_dim (self w)) <$> mrows feat /\
        the_labels inputs !! i = Some row /\
        label_length inputs !! i = Some [Z.of_nat (length label)] /\
        (length label <= length row -> take (length label) row = label).
Proof.
  intros Hpd Hwin Hrun. rewrite get_batch_run in Hrun. simpl in Hrun.
  destruct (get_batch_body_rows _ _ _ _ _ _ Hpd Hwin Hrun) as (features & Hf & Hrows).
  exists features. split; [done|]. intros i Hi.
  destruct (Hrows i Hi) as (feat & text & label & m & row
                            & ? & ? & ? & ? & ? & _ & ? & ? & ? & _ & ?).
  exists feat, text, label, m, row. repeat split; done.
Qed.

(** X8. The arrays of a returned batch are rectangular: every block of the
    input tensor has the same number of rows, and every row of it has
    [feat_dim] entries in spectrogram mode and [mfcc_dim] entries in cepstral
    mode; the label rows have one width; the two length arrays have one
    column; the [ctc] placeholder is all zeros. *)
Theorem get_batch_rectangular (partition : string) (w : world)
    (inputs : Inputs) (outputs : Outputs) :
  fst (get_batch partition w) = inr (inputs, outputs) ->
  exists T W : nat,
    Forall (fun m => nrows m = T /\
                     Forall (fun r => length r =
                                      if spectrogram (self w) then feat_dim (self w)
                                      else mfcc_dim (self w)) (mrows m))
           (the_input inputs) /\
    Forall (fun row => length row = W) (the_labels inputs) /\
    Forall (fun r => length r = 1) (input_length inputs) /\
    Forall (fun r => length r = 1) (label_length inputs) /\
    Forall (fun x => x = 0%float) (ctc outputs).
Proof.
  intros Hrun. rewrite get_batch_run in Hrun. simpl in Hrun.
  apply get_batch_body_inr in Hrun
    as (paths & c & txts & features & lengths & T & slens & W & n
        & _ & _ & _ & _ & _ & _ & _ & _ & Hinv & ->).
  assert (input_dim (self w)
          = if spectrogram (self w) then feat_dim (self w) else mfcc_dim (self w))
    as HD.
  { unfold input_dim. destruct (spectrogram (self w)); simpl; lia. }
  exists T, W. destruct Hinv as (L1 & L2 & L3 & L4 & Hdone & _).
  split; [|split; [|split; [|split]]].
  - apply Forall_lookup_2. intros i m Hm.
    destruct (Hdone i) as (feat & text & label & m' & row
                           & _ & _ & _ & _ & _ & Hm' & Hwm & _ & _).
    { apply lookup_lt_Some in Hm. lia. }
    rewrite Hm in Hm'. injection Hm' as <-.
    pose proof (assign_rows_zeros_prefix _ _ _ _ Hwm) as [Hwf _].
    apply assign_rows_zeros in Hwm as (Hc & Hr & _).
    split; [done|]. unfold wf_ndarray2 in Hwf. by rewrite Hc, HD in Hwf.
  - apply Forall_lookup_2. intros i row Hrow.
    destruct (Hdone i) as (feat & text & label & m & row'
                           & _ & _ & _ & _ & _ & _ & _ & Hrow' & Hwrow).
    { apply lookup_lt_Some in Hrow. lia. }
    rewrite Hrow in Hrow'. injection Hrow' as <-.
    by apply assign_prefix_blank in Hwrow as (? & _).
  - apply Forall_lookup_2. intros i r Hr.
    destruct (Hdone i) as (feat & text & label & m & row
                           & _ & _ & _ & Hil & _).
    { apply lookup_lt_Some in Hr. lia. }
    rewrite Hr in Hil. by injection Hil as ->.
  - apply Forall_lookup_2. intros i r Hr.
    destruct (Hdone i) as (feat & text & label & m & row
                           & _ & _ & _ & _ & Hll & _).
    { apply lookup_lt_Some in Hr. lia. }
    rewrite Hr in Hll. by injection Hll as ->.
  - simpl. by apply Forall_replicate.
Qed.

(** X9. One bad example fails the whole batch: when the featurizer fails on
    a clip of the window, or the encoder fails on a transcript of the window,
    [get_batch] raises and returns no batch. *)
Theorem get_batch_all_or_nothing (partition : string) (w : world)
    (pd : partition_data) (c : Z) :
  partition_state (self w) partition = Some (pd, c) ->
  window_within (self w) partition ->
  (exists clip e,
      clip ∈ window_of (audio_paths pd) c (minimum_batch_size (self w)) /\
      featurize (self w) clip = inl e) \/
  (exists text msg,
      text ∈ window_of (texts pd) c (minimum_batch_size (self w)) /\
      text_to_int_sequence text = inl msg) ->
  exists e, fst (get_batch partition w) = inl e.
Proof.
  intros Hpd Hwin Hbad. rewrite get_batch_run. simpl.
  destruct (get_batch_body (self w) partition) as [e|[inputs outputs]] eqn:Hrun;
    [by exists e|].
  exfalso.
  destruct (get_batch_body_rows _ _ _ _ _ _ Hpd Hwin Hrun) as (features & Hf & Hrows).
  destruct Hbad as [(clip & e & Hin & Hfail)|(text & msg & Hin & Hfail)].
  - apply list_elem_of_lookup in Hin as (i & Hi).
    destruct (mapM_inr_lookup _ _ _ i _ Hf Hi) as (y & _ & Hy).
    rewrite Hfail in Hy. discriminate.
  - apply list_elem_of_lookup in Hin as (i & Hi).
    assert (Z.of_nat i < minimum_batch_size (self w))%Z as Hlt.
    { apply lookup_lt_Some in Hi. unfold window_of in Hi.
      rewrite length_take in Hi. lia. }
    destruct (Hrows i Hlt) as (feat & text' & label & m & row
                               & _ & Ht & Henc & _).
    rewrite Hi in Ht. injection Ht as <-. rewrite Hfail in Henc. discriminate.
Qed.

(** ** When [normalize] succeeds *)

Lemma broadcast_dim_ok (a b : nat) :
  a = b \/ a = 1 \/ b = 1 ->
  Np.broadcast_dim a b = inr (if decide (a = 1) then b else a).
Proof.
  intros H. unfold Np.broadcast_dim.
  repeat case_decide; try done; try (f_equal; lia); lia.
Qed.

Lemma broadcast_dim_fail (a b : nat) :
  ~ (a = b \/ a = 1 \/ b = 1) -> Np.broadcast_dim a b = inl ValueError.
Proof. intros H. unfold Np.broadcast_dim. repeat case_decide; try done; lia. Qed.

Lemma binop_ok (op : float -> float -> float) (m : ndarray2) (v : list float) (d : nat) :
  Np.broadcast_dim (ncols m) (length v) = inr d ->
  exists r, Np.binop op m v = inr r /\ nrows r = nrows m /\ ncols r = d /\ wf_ndarray2 r.
Proof.
  intros Hd. unfold Np.binop. rewrite Hd. simpl. eexists. split; [done|].
  unfold nrows, wf_ndarray2. simpl. rewrite length_fmap. split; [done|]. split; [done|].
  apply Forall_fmap, Forall_true. intros r. simpl.
  rewrite length_zip_with, !stretch_length. lia.
Qed.

(** X10. [normalize] succeeds exactly when the feature matrix broadcasts
    against the mean and the centered matrix against the standard deviation
    (equal lengths, or one of them 1); it then returns a rectangular matrix
    with the same number of time-steps, and otherwise raises [ValueError]. *)
Theorem normalize_shapes (g : AudioGenerator) (feature : ndarray2) (eps : float) :
  let a := ncols feature in
  let m := length (feats_mean g) in
  let s := length (feats_std g) in
  let d := if decide (a = 1) then m else a in
  ((a = m \/ a = 1 \/ m = 1) /\ (d = s \/ d = 1 \/ s = 1) ->
   exists r, normalize g feature eps = inr r /\
             nrows r = nrows feature /\
             ncols r = (if decide (d = 1) then s else d) /\
             wf_ndarray2 r) /\
  (~ ((a = m \/ a = 1 \/ m = 1) /\ (d = s \/ d = 1 \/ s = 1)) ->
   normalize g feature eps = inl ValueError).
Proof.
  intros a m s d. unfold normalize. split.
  - intros [H1 H2].
    destruct (binop_ok PrimFloat.sub feature (feats_mean g) d
                (broadcast_dim_ok _ _ H1)) as (c & -> & Hr & Hc & _).
    simpl.
    assert (length (Np.add_scalar (feats_std g) eps) = s) as Hs
      by (unfold Np.add_scalar; apply length_fmap).
    destruct (binop_ok PrimFloat.div c (Np.add_scalar (feats_std g) eps)
                (if decide (d = 1) then s else d)) as (r & -> & Hr' & Hc' & Hwf).
    { rewrite Hc, Hs. by apply broadcast_dim_ok. }
    exists r. repeat split; try done. congruence.
  - intros Hno.
    destruct (decide (a = m \/ a = 1 \/ m = 1)) as [H1|H1].
    + destruct (binop_ok PrimFloat.sub feature (feats_mean g) d
                  (broadcast_dim_ok _ _ H1)) as (c & -> & Hr & Hc & _).
      simpl. unfold Np.binop.
      rewrite Hc. unfold Np.add_scalar. rewrite length_fmap.
      rewrite broadcast_dim_fail; [done|]. fold s. tauto.
    + unfold Np.binop. by rewrite broadcast_dim_fail.
Qed.

Lemma slice_head {A} (x : A) (l : list A) (n : Z) :
  (0 < n)%Z -> exists tl, Py.slice (x :: l) 0 (0 + n) = x :: tl.
Proof.
  intros Hn. unfold Py.slice, Py.clamp. rewrite !decide_False by lia.
  simpl length.
  replace (Z.to_nat (Z.min 0 (Z.of_nat (S (length l))))) with 0 by lia.
  destruct (Z.to_nat (Z.min (0 + n) (Z.of_nat (S (length l))))) as [|k] eqn:Hk; [lia|].
  simpl. eauto.
Qed.

(** The body fails with the exception the first clip of the slice raises. *)
Lemma get_batch_body_first_clip (g : AudioGenerator) (partition : string)
    (paths txts : list string) (c : Z) (clip : string) (tl : list string) (e : exn) :
  select_partition g partition = inr (paths, c, txts) ->
  Py.slice paths c (c + minimum_batch_size g) = clip :: tl ->
  (f ← featurize g clip; normalize g f default_eps) = inl e ->
  get_batch_body g partition = inl e.
Proof.
  intros Hsel Hslice Hfail. unfold get_batch_body. rewrite Hsel. simpl.
  rewrite Hslice. unfold window_features. simpl. rewrite Hfail. done.
Qed.

(** X11. A generator constructed in cepstral mode cannot assemble a batch:
    when the spectrogram parameters give a dimension other than [mfcc_dim]
    (and neither is 1), [get_batch] on [train] raises [ValueError] as soon
    as the first clip is read and its [mfcc_dim] coefficients are normalized. *)
Theorem get_batch_cepstral_raises (step window max_freq : Z) (mfcc_dim : nat)
    (minimum_batch_size : Z) (max_duration : float) (sort_by_duration : bool)
    (train valid test : partition_data) (r : rng_state)
    (clip : string) (rest : list string) (rate : Z) (sig : signal) (f : ndarray2) :
  audio_paths train = clip :: rest ->
  (0 < minimum_batch_size)%Z ->
  wav_read clip = inr (rate, sig) ->
  mfcc sig rate mfcc_dim = inr f ->
  ncols f = mfcc_dim ->
  mfcc_dim <> calc_feat_dim window max_freq ->
  mfcc_dim <> 1 -> calc_feat_dim window max_freq <> 1 ->
  fst (get_batch "train"
         {| self := init step window max_freq mfcc_dim minimum_batch_size false
                         max_duration sort_by_duration train valid test;
            np_random := r |})
  = inl ValueError.
Proof.
  intros Hpaths Hbs Hwav Hmfcc Hcols Hne H1 H2.
  rewrite get_batch_run. cbn [fst self].
  destruct (slice_head clip rest minimum_batch_size Hbs) as (tl & Hslice).
  apply (get_batch_body_first_clip _ _ (clip :: rest) (texts train) 0 clip tl).
  - unfold select_partition, train_audio_paths, train_texts, init. simpl.
    by rewrite Hpaths.
  - exact Hslice.
  - unfold featurize, init. simpl. rewrite Hwav. simpl.
    rewrite Hmfcc. simpl. unfold normalize, Np.binop. simpl.
    rewrite length_replicate, Hcols. rewrite broadcast_dim_fail; [done|]. lia.
Qed.

(** ** Shuffling and sorting lists of unequal length *)

Lemma gather_inl {A} (l : list A) (p : list nat) (e : exn) :
  gather l p = inl e -> e = IndexError.
Proof.
  unfold gather. induction p as [|i p IH]; [discriminate|].
  change (mapM (fun i => Py.index l (Z.of_nat i)) (i :: p))
    with (y ← Py.index l (Z.of_nat i);
          k ← mapM (fun i => Py.index l (Z.of_nat i)) p;
          (inr (y :: k) : result (list A))).
  rewrite index_nat. destruct (l !! i) as [x|]; simpl.
  - destruct (mapM (fun i => Py.index l (Z.of_nat i)) p) as [e'|k]; simpl.
    + intros [= <-]. by apply IH.
    + discriminate.
  - by intros [= <-].
Qed.

Lemma gather_inr_bound {A} (l : list A) (p : list nat) (k : list A) :
  gather l p = inr k -> length k = length p /\ Forall (fun i => i < length l) p.
Proof.
  intros H%gather_inr. split; [symmetry; by eapply Forall2_length|].
  induction H as [|i x p k Hx _ IH]; constructor; [|done].
  by eapply lookup_lt_Some.
Qed.

(** Gathering along a permutation of [range(n)] returns [n] elements when
    the list has at least [n], and raises [IndexError] when it has fewer. *)
Lemma gather_range {A} (l : list A) (p : list nat) (n : nat) :
  p ≡ₚ seq 0 n ->
  (n <= length l -> exists k, gather l p = inr k /\ length k = n) /\
  (length l < n -> gather l p = inl IndexError).
Proof.
  intros Hp. split.
  - intros Hn. destruct (gather_ok l p) as (k & Hk).
    { rewrite Hp. apply Forall_seq. lia. }
    exists k. split; [done|]. apply gather_inr_bound in Hk as [-> _].
    by rewrite Hp, length_seq.
  - intros Hn. destruct (gather l p) as [e|k] eqn:Hg.
    + by rewrite (gather_inl _ _ _ Hg).
    + apply gather_inr_bound in Hg as [_ Hall]. rewrite Hp in Hall.
      rewrite Forall_seq in Hall. specialize (Hall (length l)). lia.
Qed.

(** X12. [shuffle_data] indexes the durations and the texts by positions of
    [audio_paths]: when both lists are at least as long, it returns three
    lists of the length of [audio_paths] (what lies beyond is dropped) whose
    triples are those of the input in another order; when one of them is
    shorter, it raises [IndexError]. *)
Theorem shuffle_data_lengths (audio_paths : list string) (durations : list float)
    (texts : list string) (w : world) :
  fst (np_random_permutation (np_random w) (length audio_paths))
    ≡ₚ seq 0 (length audio_paths) ->
  (length audio_paths <= length durations /\ length audio_paths <= length texts ->
   exists a d t w',
     shuffle_data audio_paths durations texts w = (inr (a, d, t), w') /\
     length a = length audio_paths /\ length d = length audio_paths /\
     length t = length audio_paths /\
     triples a d t ≡ₚ triples audio_paths durations texts) /\
  (length durations < length audio_paths \/ length texts < length audio_paths ->
   fst (shuffle_data audio_paths durations texts w) = inl IndexError).
Proof.
  intros Hp. unfold shuffle_data, permutation, lift, mbind, M_bind.
  destruct (np_random_permutation (np_random w) (length audio_paths)) as [p r].
  simpl in Hp. cbn [fst].
  destruct (proj1 (gather_range audio_paths p _ Hp)) as (a & Ha & La); [done|].
  split.
  - intros [Hd Ht].
    destruct (proj1 (gather_range durations p _ Hp) Hd) as (d & Hdd & Ld).
    destruct (proj1 (gather_range texts p _ Hp) Ht) as (t & Htt & Lt).
    exists a, d, t. eexists. rewrite Ha, Hdd, Htt. simpl.
    split; [done|]. do 3 (split; [done|]).
    apply (gather_permutes _ p).
    + unfold triples. rewrite !length_zip_with.
      replace (length audio_paths `min` (length durations `min` length texts))
        with (length audio_paths) by lia. done.
    + unfold triples. by repeat apply gather_zip.
  - intros Hshort. rewrite Ha. simpl.
    destruct (decide (length durations < length audio_paths)) as [Hd|Hd].
    + by rewrite (proj2 (gather_range durations p _ Hp) Hd).
    + destruct (proj1 (gather_range durations p _ Hp)) as (d & -> & _); [lia|].
      simpl. rewrite (proj2 (gather_range texts p _ Hp)); [done|lia].
Qed.

(** X13. [sort_data] indexes the paths and the texts by positions of
    [durations]: when both lists are at least as long, it returns three lists
    of the length of [durations]; when one of them is shorter, it raises
    [IndexError]. *)
Theorem sort_data_lengths (audio_paths : list string) (durations : list float)
    (texts : list string) :
  np_argsort durations ≡ₚ seq 0 (length durations) ->
  (length durations <= length audio_paths /\ length durations <= length texts ->
   exists a d t,
     sort_data audio_paths durations texts = inr (a, d, t) /\
     length a = length durations /\ length d = length durations /\
     length t = length durations /\ d ≡ₚ durations) /\
  (length audio_paths < length durations \/ length texts < length durations ->
   sort_data audio_paths durations texts = inl IndexError).
Proof.
  intros Hp. unfold sort_data.
  destruct (proj1 (gather_range durations _ _ Hp)) as (d & Hd & Ld); [done|].
  split.
  - intros [Ha Ht].
    destruct (proj1 (gather_range audio_paths _ _ Hp) Ha) as (a & Haa & La).
    destruct (proj1 (gather_range texts _ _ Hp) Ht) as (t & Htt & Lt).
    exists a, d, t. rewrite Haa, Hd, Htt. simpl.
    do 4 (split; [done|]). by apply (gather_permutes _ (np_argsort durations)).
  - intros Hshort.
    destruct (decide (length audio_paths < length durations)) as [Ha|Ha].
    + by rewrite (proj2 (gather_range audio_paths _ _ Hp) Ha).
    + destruct (proj1 (gather_range audio_paths _ _ Hp)) as (a & -> & _); [lia|].
      simpl. rewrite Hd. simpl.
      rewrite (proj2 (gather_range texts _ _ Hp)); [done|lia].
Qed.

(** ** What [shuffle_data_by_partition] leaves alone *)

Lemma shuffle_data_self (audio_paths : list string) (durations : list float)
    (texts : list string) (w : world) :
  self (snd (shuffle_data audio_paths durations texts w)) = self w.
Proof.
  unfold shuffle_data, permutation, lift, mbind, M_bind.
  destruct (np_random_permutation (np_random w) (length audio_paths)) as [p r].
  reflexivity.
Qed.

(** The generator a call of [shuffle_data_by_partition] leaves is the one it
    found, or that one with the lists of the partition replaced. *)
Lemma shuffle_data_by_partition_self (partition : string) (w : world) :
  (exists e, fst (shuffle_data_by_partition partition w) = inl e /\
             self (snd (shuffle_data_by_partition partition w)) = self w) \/
  (fst (shuffle_data_by_partition partition w) = inr tt /\
   ((partition = "train" /\ exists a d t,
       self (snd (shuffle_data_by_partition partition w)) = set_train a d t (self w)) \/
    (partition = "valid" /\ exists a d t,
       self (snd (shuffle_data_by_partition partition w)) = set_valid a d t (self w)))).
Proof.
  unfold shuffle_data_by_partition. repeat case_decide.
  - subst. unfold mbind, M_bind, ask. cbn [fst snd].
    pose proof (shuffle_data_self (train_audio_paths (self w))
                  (train_durations (self w)) (train_texts (self w)) w) as Hs.
    destruct (shuffle_data _ _ _ w) as [[e|[[a d] t]] w']; simpl in *.
    + left. eauto.
    + right. split; [done|]. left. split; [done|]. exists a, d, t. by rewrite Hs.
  - subst. unfold mbind, M_bind, ask. cbn [fst snd].
    pose proof (shuffle_data_self (valid_audio_paths (self w))
                  (valid_durations (self w)) (valid_texts (self w)) w) as Hs.
    destruct (shuffle_data _ _ _ w) as [[e|[[a d] t]] w']; simpl in *.
    + left. eauto.
    + right. split; [done|]. right. split; [done|]. exists a, d, t. by rewrite Hs.
  - left. simpl. eauto.
Qed.

(** X14. [shuffle_data_by_partition] never moves a cursor, never changes the
    normalization statistics, the batch size, the feature mode or the [test]
    partition, changes no partition but the one it names, and when it raises
    it leaves the named partition as it was too. *)
Theorem shuffle_data_by_partition_frame (partition : string) (w : world) :
  let g := self w in
  let g' := self (snd (shuffle_data_by_partition partition w)) in
  cur_train_index g' = cur_train_index g /\
  cur_valid_index g' = cur_valid_index g /\
  cur_test_index g' = cur_test_index g /\
  feats_mean g' = feats_mean g /\ feats_std g' = feats_std g /\
  minimum_batch_size g' = minimum_batch_size g /\
  spectrogram g' = spectrogram g /\
  test g' = test g /\
  (partition <> "train" -> train g' = train g) /\
  (partition <> "valid" -> valid g' = valid g) /\
  (forall e, fst (shuffle_data_by_partition partition w) = inl e -> g' = g).
Proof.
  intros g g'. subst g g'.
  destruct (shuffle_data_by_partition_self partition w)
    as [(e & He & ->)|(Hok & [(-> & a & d & t & ->)|(-> & a & d & t & ->)])].
  - repeat split; done.
  - rewrite Hok. repeat split; done.
  - rewrite Hok. repeat split; done.
Qed.

(** X15. Shuffling one partition does not change what [get_batch] returns
    for another. *)
Theorem get_batch_after_shuffle_other (shuffled partition : string) (w : world) :
  shuffled <> partition ->
  fst (get_batch partition (snd (shuffle_data_by_partition shuffled w)))
  = fst (get_batch partition w).
Proof.
  intros Hne. rewrite !get_batch_run. cbn [fst].
  destruct (shuffle_data_by_partition_self shuffled w)
    as [(e & _ & ->)|(_ & [(-> & a & d & t & ->)|(-> & a & d & t & ->)])].
  - done.
  - unfold get_batch_body, select_partition.
    destruct (decide (partition = "train")) as [->|]; [done|].
    destruct (decide (partition = "valid")) as [->|]; [reflexivity|].
    destruct (decide (partition = "test")) as [->|]; reflexivity.
  - unfold get_batch_body, select_partition.
    destruct (decide (partition = "train")) as [->|]; [reflexivity|].
    destruct (decide (partition = "valid")) as [->|]; [done|].
    destruct (decide (partition = "test")) as [->|]; reflexivity.
Qed.

(** X16. A shuffle that returns keeps every window within its partition: the
    cursor and the batch size stay, and the three lists of the shuffled
    partition all get the length [audio_paths] had. *)
Theorem shuffle_keeps_window_within (shuffled partition : string) (w w' : world) :
  (forall n, fst (np_random_permutation (np_random w) n) ≡ₚ seq 0 n) ->
  shuffle_data_by_partition shuffled w = (inr tt, w') ->
  window_within (self w) partition ->
  window_within (self w') partition.
Proof.
  intros Hperm Hrun Hwin.
  assert (forall paths ds txts a d t w1,
            shuffle_data paths ds txts w = (inr (a, d, t), w1) ->
            self w1 = self w /\ length a = length paths /\ length t = length paths)
    as Hsh.
  { intros paths ds txts a d t w1. unfold shuffle_data, permutation, lift, mbind, M_bind.
    specialize (Hperm (length paths)).
    destruct (np_random_permutation (np_random w) (length paths)) as [p r].
    simpl in Hperm. cbn.
    destruct (gather paths p) as [|a'] eqn:Ha; [discriminate|]. simpl.
    destruct (gather ds p) as [|d'] eqn:Hd; [discriminate|]. simpl.
    destruct (gather txts p) as [|t'] eqn:Ht; [discriminate|]. simpl.
    intros [= <- <- <- <-]. split; [done|].
    apply gather_inr_bound in Ha as [-> _]. apply gather_inr_bound in Ht as [-> _].
    by rewrite Hperm, length_seq. }
  revert Hrun. unfold shuffle_data_by_partition. repeat case_decide.
  - subst shuffled. unfold mbind, M_bind, ask. simpl.
    destruct (shuffle_data _ _ _ w) as [[e|[[a d] t]] w1] eqn:Hs; [discriminate|].
    apply Hsh in Hs as (Hself & La & Lt). unfold modify. intros [= <-]. simpl.
    rewrite Hself. revert Hwin. unfold window_within, partition_state.
    repeat case_decide; try done. simpl.
    unfold train_audio_paths in *. rewrite La, Lt. lia.
  - subst shuffled. unfold mbind, M_bind, ask. simpl.
    destruct (shuffle_data _ _ _ w) as [[e|[[a d] t]] w1] eqn:Hs; [discriminate|].
    apply Hsh in Hs as (Hself & La & Lt). unfold modify. intros [= <-]. simpl.
    rewrite Hself. revert Hwin. unfold window_within, partition_state.
    repeat case_decide; try done. simpl.
    unfold valid_audio_paths in *. rewrite La, Lt. lia.
  - discriminate.
Qed.

(** ** The batch is a function of the window *)

Lemma foldM_ext_Forall {A B} (f f' : B -> A -> result B) (l : list A) (acc : B) :
  Forall (fun x => forall st, f st x = f' st x) l -> foldM f acc l = foldM f' acc l.
Proof.
  intros H. revert acc. induction H as [|x l Hx _ IH]; intros acc; [done|].
  simpl. rewrite Hx. destruct (f' acc x); simpl; [done | apply IH].
Qed.

(** The body of [get_batch], for a window within the partition, in terms of
    the clips and the transcripts of the window alone. *)
Lemma get_batch_body_window (g : AudioGenerator) (partition : string)
    (paths txts : list string) (c n : nat) :
  select_partition g partition = inr (paths, Z.of_nat c, txts) ->
  minimum_batch_size g = Z.of_nat n ->
  c + n <= length paths -> c + n <= length txts ->
  get_batch_body g partition =
  (features ← window_features g (take n (drop c paths));
   lengths ← mapM (fun i => nrows <$> Py.index features i) (Py.range (Z.of_nat n));
   max_length ← Py.max lengths;
   max_string_length ← Py.max (String.length <$> take n (drop c txts));
   inputs ← foldM (batch_step features (take n (drop c txts)) 0)
                  (fresh_arrays n max_length (input_dim g) max_string_length)
                  (Py.range (Z.of_nat n));
   inr (inputs, {| ctc := replicate n 0%float |})).
Proof.
  intros Hsel Hbs Hp Ht. unfold get_batch_body. rewrite Hsel. simpl.
  rewrite Hbs, Nat2Z.id. rewrite slice_window by done.
  destruct (window_features g (take n (drop c paths))) as [e|features]; [done|].
  simpl.
  destruct (mapM (fun i => nrows <$> Py.index features i) (Py.range (Z.of_nat n)))
    as [e|lengths]; [done|].
  simpl. destruct (Py.max lengths) as [e|T]; [done|]. simpl.
  rewrite mapM_index_window_ok by done. simpl.
  destruct (Py.max (String.length <$> take n (drop c txts))) as [e|W]; [done|].
  simpl. unfold fresh_arrays. simpl.
  rewrite (foldM_ext_Forall (batch_step features txts (Z.of_nat c))
             (batch_step features (take n (drop c txts)) 0)); [done|].
  apply Forall_lookup_2. intros i z Hz.
  assert (i < n) as Hi.
  { apply lookup_lt_Some in Hz. by rewrite range_length in Hz. }
  rewrite range_lookup in Hz by done. injection Hz as <-.
  intros st. unfold batch_step.
  replace (Py.index txts (Z.of_nat c + Z.of_nat i))
    with (Py.index (take n (drop c txts)) (0 + Z.of_nat i)); [done|].
  rewrite Z.add_0_l, <- Nat2Z.inj_add, !index_nat.
  by rewrite lookup_take_lt, lookup_drop.
Qed.

(** X17. For a window within [train] or [valid], [get_batch] returns what it
    returns when the partition holds the examples of the window alone and
    the cursor is 0: the result depends on the partition only through the
    clips and the transcripts of the window. *)
Theorem get_batch_window_only (partition : string) (w : world)
    (pd : partition_data) (c : Z) (ds : list float) :
  partition = "train" \/ partition = "valid" ->
  partition_state (self w) partition = Some (pd, c) ->
  window_within (self w) partition ->
  fst (get_batch partition w)
  = fst (get_batch partition
           {| self := with_examples partition
                        (window_of (audio_paths pd) c (minimum_batch_size (self w)))
                        (window_of (texts pd) c (minimum_batch_size (self w)))
                        ds (self w);
              np_random := np_random w |}).
Proof.
  intros Hp Hpd Hwin. rewrite !get_batch_run. cbn [fst self].
  unfold window_within in Hwin. rewrite Hpd in Hwin.
  destruct Hwin as (Hc & Hbs & Hlp & Hlt).
  set (n := Z.to_nat (minimum_batch_size (self w))).
  set (k := Z.to_nat c).
  unfold window_of. fold n k.
  assert (length (take n (drop k (audio_paths pd))) = n) as L1
    by (rewrite length_take, length_drop; lia).
  assert (length (take n (drop k (texts pd))) = n) as L2
    by (rewrite length_take, length_drop; lia).
  rewrite (get_batch_body_window (self w) partition (audio_paths pd) (texts pd) k n);
    [|
     | lia | lia | lia].
  2:{ replace (Z.of_nat k) with c by lia. revert Hpd.
      unfold partition_state, select_partition.
      destruct Hp as [-> | ->]; simpl; by intros [= <- <-]. }
  rewrite (get_batch_body_window _ partition
             (take n (drop k (audio_paths pd))) (take n (drop k (texts pd))) 0 n).
  - rewrite !drop_0, !take_take, !Nat.min_id.
    destruct Hp as [-> | ->]; reflexivity.
  - unfold with_examples, select_partition.
    destruct Hp as [-> | ->]; reflexivity.
  - unfold with_examples. destruct Hp as [-> | ->]; simpl; lia.
  - lia.
  - lia.
Qed.

End Generator.

Arguments self {rng_state} _.
Arguments np_random {rng_state} _.
Arguments Build_world {rng_state} _ _.

(** * Sorting by duration *)


(** * A worked example

    Three clips with durations 1, 3 and 2 seconds and the transcripts "hi",
    "hello there" and "ok", in one batch of size 3.  The collaborators are
    stand-ins: a clip named by [k] characters has [k] time-steps of three
    spectrogram bins, and the encoder gives the apostrophe 0, the space 1 and
    the letters a to z the codes 2 to 27. *)

Module Example.

Definition calc_feat_dim (window max_freq : Z) : nat := 3.

Definition spectrogram_from_file (clip : string) (step window max_freq : Z)
  : string + ndarray2 :=
  inr {| ncols := 3;
         mrows := replicate (String.length clip) [1%float; 2%float; 3%float] |}.

Definition wav_read (clip : string) : string + (Z * list Z) :=
  inl "not a wav file"%string.

Definition mfcc (sig : list Z) (rate : Z) (numcep : nat) : string + ndarray2 :=
  inr {| ncols := numcep; mrows := [] |}.

Definition char_code (a : Ascii.ascii) : Z :=
  if decide (a = "'"%char) then 0
  else if decide (a = " "%char) then 1
  else Z.of_nat (Ascii.nat_of_ascii a) - 95.

Definition text_to_int_sequence (text : string) : string + list Z :=
  inr (char_code <$> String.list_ascii_of_string text).

(** A random state that is never advanced and always draws the reversal. *)
Definition np_random_permutation (r : unit) (n : nat) : list nat * unit :=
  (rev (seq 0 n), r).

Definition clips : partition_data :=
  {| audio_paths := ["a"; "bbb"; "cc"]%string;
     durations := [1%float; 3%float; 2%float];
     texts := ["hi"; "hello there"; "ok"]%string |}.

Definition no_clips : partition_data :=
  {| audio_paths := []; durations := []; texts := [] |}.

Definition generator : AudioGenerator :=
  init calc_feat_dim 10 20 8000 13 3 true 10%float false clips no_clips no_clips.

Definition state : world unit := {| self := generator; np_random := tt |}.

Definition run_get_batch (partition : string) (w : world unit) :=
  get_batch spectrogram_from_file (list Z) wav_read mfcc text_to_int_sequence
            unit partition w.

(** The batch of the partition [train]. *)
Definition batch : Inputs * Outputs :=
  Eval vm_compute in
    match fst (run_get_batch "train" state) with
    | inr b => b
    | inl _ => ({| the_input := []; the_labels := []; input_length := [];
                   label_length := [] |}, {| ctc := [] |})
    end.

Lemma window_within_train : window_within generator "train".
Proof. vm_compute. repeat split; discriminate. Defined.

Lemma run_train : fst (run_get_batch "train" state) = inr (fst batch, snd batch).
Proof. vm_compute. reflexivity. Defined.

(** The row of "hi" holds the codes of [h] and [i] and nine blanks. *)
Example hi_row : the_labels (fst batch) !! 0 = Some [9; 10; 28; 28; 28; 28; 28; 28; 28; 28; 28]%Z.
Proof. reflexivity. Qed.

End Example.

(** * The theorems at the worked example *)

Import Example.

Lemma get_batch_padding_witness :
  window_within generator "train" /\
  fst (run_get_batch "train" state) = inr (fst batch, snd batch) /\
  exists (m : ndarray2) (row : list Z) (t l : nat),
    the_input (fst batch) !! 0 = Some m /\
    input_length (fst batch) !! 0 = Some [Z.of_nat t] /\
    (forall j r, t <= j -> mrows m !! j = Some r ->
                 r = replicate (input_dim generator) 0%float) /\
    the_labels (fst batch) !! 0 = Some row /\
    label_length (fst batch) !! 0 = Some [Z.of_nat l] /\
    (forall k x, l <= k -> row !! k = Some x -> x = 28%Z).
Proof.
  split; [exact window_within_train|]. split; [exact run_train|].
  apply (get_batch_padding spectrogram_from_file (list Z) wav_read mfcc
           text_to_int_sequence unit "train" state (fst batch) (snd batch)
           window_within_train run_train 0).
  reflexivity.
Defined.

Lemma get_batch_first_dimension_witness :
  Z.of_nat (length (the_input (fst batch))) = 3%Z /\
  Z.of_nat (length (the_labels (fst batch))) = 3%Z /\
  Z.of_nat (length (input_length (fst batch))) = 3%Z /\
  Z.of_nat (length (label_length (fst batch))) = 3%Z /\
  Z.of_nat (length (ctc (snd batch))) = 3%Z.
Proof.
  apply (get_batch_first_dimension spectrogram_from_file (list Z) wav_read mfcc
           text_to_int_sequence unit "train" state (fst batch) (snd batch)
           window_within_train run_train).
Defined.

Lemma get_batch_exact_maxima_witness :
  exists features,
    window_features spectrogram_from_file (list Z) wav_read mfcc generator
      (window_of (audio_paths clips) 0 3) = inr features /\
    (0 < 3)%Z /\
    Z.of_nat (length features) = 3%Z /\
    Z.of_nat (length (the_input (fst batch))) = 3%Z /\
    Z.of_nat (length (the_labels (fst batch))) = 3%Z /\
    Forall (fun m => is_max (nrows m) (nrows <$> features)) (the_input (fst batch)) /\
    Forall (fun row => is_max (length row)
                         (String.length <$> window_of (texts clips) 0 3))
           (the_labels (fst batch)).
Proof.
  apply (get_batch_exact_maxima spectrogram_from_file (list Z) wav_read mfcc
           text_to_int_sequence unit "train" state clips 0 (fst batch) (snd batch)
           eq_refl window_within_train run_train).
Defined.

(** The label tensor of the example is as wide as "hello there" is long. *)
Example label_width : Forall (fun row => length row = 11) (the_labels (fst batch)).
Proof. repeat constructor. Qed.

(** The features of the three clips, normalized. *)
Definition example_features : list ndarray2 :=
  Eval vm_compute in
    match window_features spectrogram_from_file (list Z) wav_read mfcc generator
            (audio_paths clips) with
    | inr fs => fs
    | inl _ => []
    end.

Lemma get_batch_label_write_fits_witness :
  exists inputs outputs,
    fst (run_get_batch "train" state) = inr (inputs, outputs) /\
    Forall2 (fun t row => exists label,
                 text_to_int_sequence t = inr label /\ length label <= length row)
            (window_of (texts clips) 0 3) (the_labels inputs) /\
    label_length inputs
    = (fun t => [Z.of_nat (String.length t)]) <$> window_of (texts clips) 0 3.
Proof.
  apply (get_batch_label_write_fits spectrogram_from_file (list Z) wav_read mfcc
           text_to_int_sequence unit "train" state clips 0 example_features).
  - reflexivity.
  - exact window_within_train.
  - reflexivity.
  - vm_compute. reflexivity.
  - repeat constructor.
  - repeat constructor; eexists; (split; [reflexivity|reflexivity]).
Defined.

(** A generator in cepstral mode with 13 coefficients, where the spectrogram
    parameters give 161 bins, and a feature matrix of one time-step. *)
Lemma normalize_cepstral_shape_mismatch_witness :
  normalize (init (fun _ _ => 161) 10 20 8000 13 20 false 10%float false
                  clips no_clips no_clips)
            {| ncols := 13; mrows := [replicate 13 1%float] |} default_eps
  = inl ValueError.
Proof.
  apply normalize_cepstral_shape_mismatch;
    [reflexivity | discriminate | discriminate | discriminate].
Defined.

(** The clips sorted by duration: the first, the third, the second. *)
Example sort_data_clips :
  argsort stable_tie (durations clips) = [0; 2; 1] /\
  sort_data (argsort stable_tie) (audio_paths clips) (durations clips) (texts clips)
  = inr (["a"; "cc"; "bbb"]%string, [1%float; 2%float; 3%float],
         ["hi"; "ok"; "hello there"]%string).
Proof. split; vm_compute; reflexivity. Qed.



Lemma get_batch_returns_witness :
  exists inputs outputs, fst (run_get_batch "train" state) = inr (inputs, outputs).
Proof.
  apply (get_batch_returns spectrogram_from_file (list Z) wav_read mfcc
           text_to_int_sequence unit "train" state clips 0 example_features).
  - reflexivity.
  - exact window_within_train.
  - reflexivity.
  - vm_compute. reflexivity.
  - repeat constructor.
  - repeat constructor; eexists; (split; [reflexivity|reflexivity]).
Defined.

(** One time-step of three bins, normalized with the statistics the
    constructor sets. *)
Lemma normalize_spectrogram_witness :
  normalize generator {| ncols := 3; mrows := [[1%float; 2%float; 3%float]] |}
            default_eps
  = inr {| ncols := 3;
           mrows := [(fun x : float =>
                        PrimFloat.div (PrimFloat.sub x 0%float)
                                      (PrimFloat.add 1%float default_eps))
                       <$> [1%float; 2%float; 3%float]] |}.
Proof.
  apply (normalize_spectrogram calc_feat_dim 10 20 8000 13 3 10%float false
           clips no_clips no_clips
           {| ncols := 3; mrows := [[1%float; 2%float; 3%float]] |}).
  - reflexivity.
  - repeat constructor.
Defined.






(** * Edge cases at the worked example *)

(** The generator of the example with another batch size. *)
Definition generator_with_batch_size (bs : Z) : AudioGenerator :=
  init calc_feat_dim 10 20 8000 13 bs true 10%float false clips no_clips no_clips.

Lemma get_batch_nonpositive_batch_size_witness :
  fst (run_get_batch "train" {| self := generator_with_batch_size 0; np_random := tt |})
  = inl ValueError.
Proof.
  apply (get_batch_nonpositive_batch_size spectrogram_from_file (list Z) wav_read mfcc
           text_to_int_sequence unit "train"
           {| self := generator_with_batch_size 0; np_random := tt |}
           (audio_paths clips) (texts clips) 0).
  - reflexivity.
  - discriminate.
  - left. reflexivity.
Defined.

(** A batch of five from a partition of three clips. *)
Lemma get_batch_window_past_end_witness :
  fst (run_get_batch "train" {| self := generator_with_batch_size 5; np_random := tt |})
  = inl IndexError.
Proof.
  apply (get_batch_window_past_end spectrogram_from_file (list Z) wav_read mfcc
           text_to_int_sequence unit "train"
           {| self := generator_with_batch_size 5; np_random := tt |}
           (audio_paths clips) (texts clips) 0 example_features).
  - reflexivity.
  - discriminate.
  - reflexivity.
  - reflexivity.
  - vm_compute. reflexivity.
Defined.

Lemma get_batch_copies_examples_witness :
  exists features,
    window_features spectrogram_from_file (list Z) wav_read mfcc generator
      (window_of (audio_paths clips) 0 3) = inr features /\
    forall i : nat, (Z.of_nat i < 3)%Z ->
      exists feat text label m row,
        features !! i = Some feat /\
        window_of (texts clips) 0 3 !! i = Some text /\
        text_to_int_sequence text = inr label /\
        the_input (fst batch) !! i = Some m /\
        input_length (fst batch) !! i = Some [Z.of_nat (nrows feat)] /\
        take (nrows feat) (mrows m)
          = Np.stretch 0%float (input_dim generator) <$> mrows feat /\
        the_labels (fst batch) !! i = Some row /\
        label_length (fst batch) !! i = Some [Z.of_nat (length label)] /\
        (length label <= length row -> take (length label) row = label).
Proof.
  apply (get_batch_copies_examples spectrogram_from_file (list Z) wav_read mfcc
           text_to_int_sequence unit "train" state clips 0 (fst batch) (snd batch)
           eq_refl window_within_train run_train).
Defined.

Lemma get_batch_rectangular_witness :
  exists T W : nat,
    Forall (fun m => nrows m = T /\ Forall (fun r => length r = 3) (mrows m))
           (the_input (fst batch)) /\
    Forall (fun row => length row = W) (the_labels (fst batch)) /\
    Forall (fun r => length r = 1) (input_length (fst batch)) /\
    Forall (fun r => length r = 1) (label_length (fst batch)) /\
    Forall (fun x => x = 0%float) (ctc (snd batch)).
Proof.
  apply (get_batch_rectangular spectrogram_from_file (list Z) wav_read mfcc
           text_to_int_sequence unit "train" state (fst batch) (snd batch) run_train).
Defined.

(** A featurizer that cannot read one of the clips. *)
Definition spectrogram_or_missing (clip : string) (step window max_freq : Z)
  : string + ndarray2 :=
  if decide (clip = "bbb"%string) then inl "no such file"%string
  else spectrogram_from_file clip step window max_freq.

Lemma get_batch_all_or_nothing_witness :
  exists e,
    fst (get_batch spectrogram_or_missing (list Z) wav_read mfcc text_to_int_sequence
                   unit "train" state) = inl e.
Proof.
  apply (get_batch_all_or_nothing spectrogram_or_missing (list Z) wav_read mfcc
           text_to_int_sequence unit "train" state clips 0 eq_refl window_within_train).
  left. exists "bbb"%string, (External "no such file").
  split; [|reflexivity].
  apply (list_elem_of_lookup_2 _ 1). reflexivity.
Defined.

(** A reader and a cepstral extractor that succeed on every clip. *)
Definition wav_read_ok (clip : string) : string + (Z * list Z) :=
  inr (16000%Z, [1; 2; 3]%Z).

Definition mfcc_ok (sig : list Z) (rate : Z) (numcep : nat) : string + ndarray2 :=
  inr {| ncols := numcep; mrows := [replicate numcep 1%float] |}.

Lemma get_batch_cepstral_raises_witness :
  fst (get_batch spectrogram_from_file (list Z) wav_read_ok mfcc_ok
         text_to_int_sequence unit "train"
         {| self := init (fun _ _ => 161) 10 20 8000 13 3 false 10%float false
                         clips no_clips no_clips;
            np_random := tt |})
  = inl ValueError.
Proof.
  apply (get_batch_cepstral_raises (fun _ _ => 161) spectrogram_from_file (list Z)
           wav_read_ok mfcc_ok text_to_int_sequence unit 10 20 8000 13 3 10%float
           false clips no_clips no_clips tt "a"%string ["bbb"; "cc"]%string
           16000 [1; 2; 3]%Z {| ncols := 13; mrows := [replicate 13 1%float] |});
    try reflexivity; discriminate.
Defined.

(** Two paths against three durations and three texts. *)
Lemma shuffle_data_lengths_witness :
  exists a d t w',
    shuffle_data unit np_random_permutation ["a"; "bbb"]%string (durations clips)
                 (texts clips) state = (inr (a, d, t), w') /\
    length a = 2 /\ length d = 2 /\ length t = 2 /\
    triples a d t ≡ₚ triples ["a"; "bbb"]%string (durations clips) (texts clips).
Proof.
  apply (proj1 (shuffle_data_lengths unit np_random_permutation ["a"; "bbb"]%string
                  (durations clips) (texts clips) state
                  (Permutation_sym (Permutation_rev [0; 1])))).
  split; simpl; lia.
Defined.

Lemma sort_data_lengths_witness :
  exists a d t,
    sort_data (fun _ => [0; 2; 1]) (audio_paths clips) (durations clips) (texts clips)
    = inr (a, d, t) /\
    length a = 3 /\ length d = 3 /\ length t = 3 /\ d ≡ₚ durations clips.
Proof.
  apply (proj1 (sort_data_lengths (fun _ => [0; 2; 1]) (audio_paths clips)
                  (durations clips) (texts clips)
                  (perm_skip 0 (perm_swap 1 2 [])))).
  split; simpl; lia.
Defined.

Lemma get_batch_after_shuffle_other_witness :
  fst (run_get_batch "train"
         (snd (shuffle_data_by_partition unit np_random_permutation "valid" state)))
  = fst (run_get_batch "train" state).
Proof.
  apply (get_batch_after_shuffle_other spectrogram_from_file (list Z) wav_read mfcc
           text_to_int_sequence unit np_random_permutation "valid" "train" state).
  discriminate.
Defined.

(** The state after the partition [train] of the example is shuffled. *)
Definition shuffled_state : world unit :=
  Eval vm_compute in
    snd (shuffle_data_by_partition unit np_random_permutation "train" state).

Lemma shuffle_keeps_window_within_witness :
  window_within (self shuffled_state) "train".
Proof.
  apply (shuffle_keeps_window_within unit np_random_permutation "train" "train"
           state shuffled_state).
  - intros n. simpl. symmetry. apply Permutation_rev.
  - vm_compute. reflexivity.
  - exact window_within_train.
Defined.

(** The second and the third clip, as a window of two at cursor 1 and as a
    partition of their own. *)
Lemma get_batch_window_only_witness :
  fst (run_get_batch "train"
         {| self := set_cur_train_index 1 (generator_with_batch_size 2);
            np_random := tt |})
  = fst (run_get_batch "train"
           {| self := with_examples "train" ["bbb"; "cc"]%string
                                    ["hello there"; "ok"]%string []
                                    (set_cur_train_index 1 (generator_with_batch_size 2));
              np_random := tt |}).
Proof.
  refine (get_batch_window_only spectrogram_from_file (list Z) wav_read mfcc
            text_to_int_sequence unit "train"
            {| self := set_cur_train_index 1 (generator_with_batch_size 2);
               np_random := tt |}
            clips 1 [] _ eq_refl _).
  - left. reflexivity.
  - vm_compute. repeat split; discriminate.
Defined.
